(** * Hellwig's method (pyhellwig): a shallow embedding of [hellwig.py]

    The development follows the four functions of the script,
    [combination], [hellwig_singular], [hellwig] and [main], and the
    library routines they call ([itertools.combinations], [max] with a
    key, [range], and the two pandas correlation routines).

    Numbers.  The script computes with [numpy.float64] values taken out
    of pandas objects.  They are idealised here: a finite value is an exact
    rational (no rounding), and the special values [inf], [-inf] and [nan]
    are kept, with numpy's rules for them (a division by zero yields an
    infinity or [nan], it raises nothing).  The two zeros are identified;
    the only divisor of the script is a sum of absolute values, whose zero
    is the positive one.  Rounding, underflow and overflow of finite values
    are left out. *)

From Stdlib Require Import List String ZArith QArith Qabs Bool Arith Lia Lqa.
From Stdlib Require Import Sorted.
Import ListNotations.

(** A variable is a column name. *)
Definition var := string.

(** ** Exceptions and results *)

Inductive exn : Type :=
| ValueError (msg : string)
| KeyError
| IndexError
| OSError
| OverflowError.

Inductive result (A : Type) : Type :=
| Ok (a : A)
| Raise (e : exn).

Arguments Ok {A} a.
Arguments Raise {A} e.

Definition bind {A B : Type} (r : result A) (k : A -> result B) : result B :=
  match r with
  | Ok a => k a
  | Raise e => Raise e
  end.

Notation "x <- r ;; k" := (bind r (fun x => k))
  (at level 61, r at next level, right associativity).

(** A lookup that raises [KeyError] on a missing key. *)
Definition getitem {A : Type} (o : option A) : result A :=
  match o with
  | Some a => Ok a
  | None => Raise KeyError
  end.

(** [for x in xs: s = body s x], stopping at the first exception. *)
Fixpoint for_each {S X : Type} (body : S -> X -> result S) (s : S) (xs : list X)
  : result S :=
  match xs with
  | [] => Ok s
  | x :: xs' => s' <- body s x ;; for_each body s' xs'
  end.

(** [Parallel(n_jobs=-1)(delayed(f)(x) for x in xs)]: the results in the
    order of the inputs, or the exception of a task that failed. *)
Fixpoint parallel {X Y : Type} (f : X -> result Y) (xs : list X) : result (list Y) :=
  match xs with
  | [] => Ok []
  | x :: xs' => y <- f x ;; ys <- parallel f xs' ;; Ok (y :: ys)
  end.

(** ** numpy.float64, idealised *)

Inductive num : Type :=
| Fin (q : Q)
| PInf
| NInf
| NaN.

Module Np.

Definition zero : num := Fin 0.

Definition add (x y : num) : num :=
  match x, y with
  | NaN, _ | _, NaN => NaN
  | Fin a, Fin b => Fin (a + b)
  | PInf, NInf | NInf, PInf => NaN
  | PInf, _ | _, PInf => PInf
  | NInf, _ | _, NInf => NInf
  end.

Definition abs (x : num) : num :=
  match x with
  | Fin a => Fin (Qabs a)
  | PInf | NInf => PInf
  | NaN => NaN
  end.

(** [x ** 2] *)
Definition square (x : num) : num :=
  match x with
  | Fin a => Fin (a * a)
  | PInf | NInf => PInf
  | NaN => NaN
  end.

(** [x / y].  numpy does not raise on a zero divisor: it warns and returns
    an infinity of the sign of [x], or [nan] for [0 / 0]. *)
Definition div (x y : num) : num :=
  match x, y with
  | NaN, _ | _, NaN => NaN
  | Fin a, Fin b =>
      if Qeq_bool b 0 then
        match a ?= 0 with
        | Eq => NaN
        | Gt => PInf
        | Lt => NInf
        end
      else Fin (a / b)
  | Fin _, (PInf | NInf) => Fin 0
  | PInf, Fin b => if Qle_bool 0 b then PInf else NInf
  | NInf, Fin b => if Qle_bool 0 b then NInf else PInf
  | (PInf | NInf), (PInf | NInf) => NaN
  end.

(** [x > y]; every comparison with [nan] is false. *)
Definition gt (x y : num) : bool :=
  match x, y with
  | NaN, _ | _, NaN => false
  | Fin a, Fin b => negb (Qle_bool a b)
  | PInf, PInf => false
  | PInf, _ => true
  | _, PInf => false
  | NInf, _ => false
  | Fin _, NInf => true
  end.

End Np.

(** Two numbers denote the same value. *)
Definition num_eq (x y : num) : Prop :=
  match x, y with
  | Fin a, Fin b => a == b
  | PInf, PInf | NInf, NInf | NaN, NaN => True
  | _, _ => False
  end.

(** The order of [>] read as propositions. *)
Definition num_lt (x y : num) : Prop := Np.gt y x = true.
Definition num_le (x y : num) : Prop := Np.gt x y = false.

(** ** Python built-ins *)

(** [max(l, key=key)]: the first item is the incumbent, a later item
    replaces it only when its key is strictly greater. *)
Fixpoint max_from {A : Type} (key : A -> num) (best : A) (l : list A) : A :=
  match l with
  | [] => best
  | x :: l' => max_from key (if Np.gt (key x) (key best) then x else best) l'
  end.

Definition py_max {A : Type} (key : A -> num) (l : list A) : result A :=
  match l with
  | [] => Raise (ValueError "max() arg is an empty sequence")
  | x :: l' => Ok (max_from key x l')
  end.

(** [range(lo, hi)] *)
Definition range (lo hi : Z) : list Z :=
  map (fun i => (lo + Z.of_nat i)%Z) (seq 0 (Z.to_nat (hi - lo))).

(** [itertools.combinations(pool, r)] for [r >= 0]: the [r]-element
    subsequences of [pool], in lexicographic order of their positions. *)
Fixpoint combinations {A : Type} (pool : list A) (r : nat) : list (list A) :=
  match r with
  | O => [[]]
  | S r' =>
      match pool with
      | [] => []
      | x :: pool' => map (cons x) (combinations pool' r') ++ combinations pool' r
      end
  end.

(** ** The script *)

(** [sys.maxsize], the largest size C code accepts and the largest length
    a Python sequence can have. *)
Definition PY_SSIZE_T_MAX : Z := 9223372036854775807.

(** [combination(iterable, n)].  [itertools.combinations] refuses a
    negative size and cannot take one above [sys.maxsize].  Such a size is
    above the length of any sequence; the test on the length says no more
    than that. *)
Definition combination (iterable : list var) (n : Z) : result (list (list var)) :=
  if (n <? 0)%Z then Raise (ValueError "r must be non-negative")
  else if (PY_SSIZE_T_MAX <? n)%Z && (Z.of_nat (List.length iterable) <? n)%Z
       then Raise OverflowError
  else Ok (combinations iterable (Z.to_nat n)).

(** The first loop of [hellwig_singular], from [denominator = 0]:
    [for var in var_combination:
       denominator += abs(correlation_matrix[var_combination[0]][var])].
    [correlation_matrix a b] is the lookup [correlation_matrix[a][b]],
    [None] when a key is missing. *)
Definition denominator_loop (correlation_matrix : var -> var -> option num)
    (var_combination : list var) : result num :=
  for_each (fun denominator v =>
              ref <- match nth_error var_combination 0 with
                     | Some ref => Ok ref
                     | None => Raise IndexError
                     end ;;
              c <- getitem (correlation_matrix ref v) ;;
              Ok (Np.add denominator (Np.abs c)))
           Np.zero var_combination.

(** The second loop, from [h = 0]:
    [for var in var_combination:
       h += (dependent_var_correlation_matrix[var]**2)/denominator]. *)
Definition capacity_loop (dependent_var_correlation_matrix : var -> option num)
    (denominator : num) (var_combination : list var) : result num :=
  for_each (fun h v =>
              d <- getitem (dependent_var_correlation_matrix v) ;;
              Ok (Np.add h (Np.div (Np.square d) denominator)))
           Np.zero var_combination.

(** [hellwig_singular(correlation_matrix, dependent_var_correlation_matrix,
    var_combination)] *)
Definition hellwig_singular
    (correlation_matrix : var -> var -> option num)
    (dependent_var_correlation_matrix : var -> option num)
    (var_combination : list var) : result (list var * num) :=
  denominator <- denominator_loop correlation_matrix var_combination ;;
  h <- capacity_loop dependent_var_correlation_matrix denominator var_combination ;;
  Ok (var_combination, h).

(** [hellwig(correlation_matrix, dependent_var_correlation_matrix,
    var_combinations)] *)
Definition hellwig
    (correlation_matrix : var -> var -> option num)
    (dependent_var_correlation_matrix : var -> option num)
    (var_combinations : list (list (list var))) : result (list var * num) :=
  best_info <-
    for_each (fun best_info combination =>
                h <- parallel (hellwig_singular correlation_matrix
                                 dependent_var_correlation_matrix) combination ;;
                h <- py_max snd h ;;
                Ok (best_info ++ [h]))
             [] var_combinations ;;
  py_max snd best_info.

(** ** The dataset, as far as the script looks at it

    The script only asks pandas for the column names of the table and for
    correlations.  A table is therefore given by its columns and, for each
    pair of them, the number of rows in which both hold a number and
    Pearson's coefficient over those rows.  A column with a cell that is
    not a number stays a column of texts (line 54 throws the coerced table
    away): [df_text] gives the first of its cells that the conversion to a
    float refuses, [None] for a column of numbers and missing cells. *)
Record DataFrame : Type := {
  df_keys : list var;
  df_valid : var -> var -> nat;
  df_pearson : var -> var -> num;
  df_text : var -> option string
}.

Definition has_column (df : DataFrame) (v : var) : bool :=
  existsb (String.eqb v) (df_keys df).

(** [df.drop(v, axis=1)] for a column [v] of [df]. *)
Definition drop (df : DataFrame) (v : var) : DataFrame :=
  {| df_keys := filter (fun k => negb (String.eqb v k)) (df_keys df);
     df_valid := df_valid df;
     df_pearson := df_pearson df;
     df_text := df_text df |}.

(** The coefficient pandas computes for two columns of numbers, in
    [Series.corr] and in [DataFrame.corr] alike: [nan] when fewer than two
    rows hold a number in both, Pearson's coefficient otherwise. *)
Definition pairwise_corr (df : DataFrame) (a b : var) : num :=
  if (df_valid df a b <? 2)%nat then NaN else df_pearson df a b.

(** The [ValueError] of the conversion of a column of texts to numbers. *)
Definition could_not_convert (cell : string) : exn :=
  ValueError ("could not convert string to float: '" ++ cell ++ "'").

(** [df[a].corr(df[b])]: both columns are converted to numbers, [a] first. *)
Definition series_corr (df : DataFrame) (a b : var) : result num :=
  match df_text df a with
  | Some cell => Raise (could_not_convert cell)
  | None =>
      match df_text df b with
      | Some cell => Raise (could_not_convert cell)
      | None => Ok (pairwise_corr df a b)
      end
  end.

(** The entry [a], [b] of the matrix [df.corr()] returns. *)
Definition frame_corr (df : DataFrame) (a b : var) : option num :=
  if has_column df a && has_column df b then Some (pairwise_corr df a b) else None.

(** The first cell that is not a number in the columns [keys], in their
    order. *)
Fixpoint first_text (df : DataFrame) (keys : list var) : option string :=
  match keys with
  | [] => None
  | k :: keys' =>
      match df_text df k with
      | Some cell => Some cell
      | None => first_text df keys'
      end
  end.

(** [df.corr()]: the whole table is converted to numbers first. *)
Definition dataframe_corr (df : DataFrame) : result (var -> var -> option num) :=
  match first_text df (df_keys df) with
  | Some cell => Raise (could_not_convert cell)
  | None => Ok (frame_corr df)
  end.

(** An [OrderedDict] with string keys. *)
Definition dict (V : Type) : Type := list (var * V).

Fixpoint dict_set {V : Type} (k : var) (v : V) (d : dict V) : dict V :=
  match d with
  | [] => [(k, v)]
  | (k', v') :: d' =>
      if String.eqb k k' then (k, v) :: d' else (k', v') :: dict_set k v d'
  end.

Fixpoint dict_get {V : Type} (k : var) (d : dict V) : option V :=
  match d with
  | [] => None
  | (k', v') :: d' => if String.eqb k k' then Some v' else dict_get k d'
  end.

(** What the run does to the outside, in order. *)
Inductive event : Type :=
| EvReadCsv (fname : string)
| EvSeriesCorr (a b : var)
| EvFrameCorr.

(** Lines 60 to 62: [for var in independent_vars:
    yx_corrs[var] = df[dependent_var].corr(df[var])]. *)
Fixpoint yx_corrs_loop (df : DataFrame) (dependent_var : var)
    (independent_vars : list var) (yx_corrs : dict num)
  : list event * result (dict num) :=
  match independent_vars with
  | [] => ([], Ok yx_corrs)
  | v :: vars' =>
      if has_column df v then
        match series_corr df dependent_var v with
        | Raise e => ([EvSeriesCorr dependent_var v], Raise e)
        | Ok c =>
            let (evs, r) :=
              yx_corrs_loop df dependent_var vars' (dict_set v c yx_corrs) in
            (EvSeriesCorr dependent_var v :: evs, r)
        end
      else ([], Raise KeyError)
  end.

(** The sizes of line 64:
    [range(min, len(independent_vars)+1 if max < 1 else max)]. *)
Definition size_range (min max : Z) (len : nat) : list Z :=
  range min (if (max <? 1)%Z then (Z.of_nat len + 1)%Z else max).

(** [main(fname, dependent_var, independent_vars, delimeter, decimal, min,
    max)].  [read_csv] is the file system seen through [pd.read_csv]: the
    table, or what [pd.read_csv] raises.  An empty [independent_vars]
    stands for the option not given.  The result [Ok (c, h)] is the line
    printed at the end. *)
Definition main (read_csv : string -> string -> string -> result DataFrame)
    (fname : string) (dependent_var : var) (independent_vars : list var)
    (delimeter decimal : string) (min max : Z)
  : list event * result (list var * num) :=
  if (min <? 1)%Z then ([], Raise (ValueError "min cannot be smaller than 1"))
  else
    match read_csv fname delimeter decimal with
    | Raise e => ([EvReadCsv fname], Raise e)
    | Ok df =>
        if negb (has_column df dependent_var) then ([EvReadCsv fname], Raise KeyError)
        else
          let independent_df := drop df dependent_var in
          let independent_vars :=
            match independent_vars with
            | [] => df_keys independent_df
            | _ => independent_vars
            end in
          match yx_corrs_loop df dependent_var independent_vars [] with
          | (evs, Raise e) => (EvReadCsv fname :: evs, Raise e)
          | (evs, Ok yx_corrs) =>
              match parallel (combination independent_vars)
                      (size_range min max (List.length independent_vars)) with
              | Raise e => (EvReadCsv fname :: evs, Raise e)
              | Ok combinations =>
                  (EvReadCsv fname :: evs ++ [EvFrameCorr],
                   correlation_matrix <- dataframe_corr independent_df ;;
                   hellwig correlation_matrix
                     (fun v => dict_get v yx_corrs) combinations)
              end
          end
    end.

(** The candidate pool of a run: the variables named on the command line,
    or all columns but the dependent one. *)
Definition pool_of (df : DataFrame) (dependent_var : var) (independent_vars : list var)
  : list var :=
  match independent_vars with
  | [] => df_keys (drop df dependent_var)
  | _ => independent_vars
  end.

(** The enumerations handed to [hellwig]: one per size of line 64. *)
Definition enumerations (pool : list var) (min max : Z) : list (list (list var)) :=
  map (fun k => combinations pool (Z.to_nat k)) (size_range min max (List.length pool)).

(** ** The formulas of the specification *)

Definition sum_num (l : list num) : num := fold_right Np.add Np.zero l.

(** [D = sum over v in C of |corr(v_ref, v)|], [v_ref] the first of [C]. *)
Definition reference_denominator (corr : var -> var -> num) (C : list var) : num :=
  match C with
  | [] => Np.zero
  | v_ref :: _ => sum_num (map (fun v => Np.abs (corr v_ref v)) C)
  end.

(** [h(v) = DependentCorrelationVector[v]^2 / D] *)
Definition individual_capacity (corr : var -> var -> num) (dvec : var -> num)
    (C : list var) (v : var) : num :=
  Np.div (Np.square (dvec v)) (reference_denominator corr C).

(** [H(C) = sum over v in C of h(v)] *)
Definition total_capacity (corr : var -> var -> num) (dvec : var -> num)
    (C : list var) : num :=
  sum_num (map (individual_capacity corr dvec C) C).

(** The same sums over the rationals, for finite entries. *)
Definition Qsum (l : list Q) : Q := fold_right Qplus 0 l.

(** The winner of one size: what [max] keeps of the combinations of a
    per-size enumeration scored by [score]. *)
Definition size_best (score : list var -> num) (L : list (list var)) : list var :=
  match L with
  | [] => []
  | c0 :: l => max_from score c0 l
  end.

(** Pascal's triangle. *)
Fixpoint binomial (n k : nat) : nat :=
  match k with
  | O => 1
  | S k' =>
      match n with
      | O => 0
      | S n' => binomial n' k' + binomial n' k
      end
  end.

(** [c] keeps some of the items of [l], in the order of [l]. *)
Inductive subsequence {A : Type} : list A -> list A -> Prop :=
| subseq_nil : subsequence [] []
| subseq_skip : forall x c l, subsequence c l -> subsequence c (x :: l)
| subseq_take : forall x c l, subsequence c l -> subsequence (x :: c) (x :: l).

(** ** A small table: the scenario of the specification

    Columns [Y], [A], [B] with [corr(A,B) = 0.5], [corr(Y,A) = 0.8] and
    [corr(Y,B) = 0.6], over [rows] complete rows. *)
Definition scenario_pearson (a b : var) : num :=
  if String.eqb a b then Fin 1
  else if (String.eqb a "Y"%string && String.eqb b "A"%string) || (String.eqb a "A"%string && String.eqb b "Y"%string)
       then Fin (8 # 10)
  else if (String.eqb a "Y"%string && String.eqb b "B"%string) || (String.eqb a "B"%string && String.eqb b "Y"%string)
       then Fin (6 # 10)
  else Fin (5 # 10).

Definition scenario (rows : nat) : DataFrame :=
  {| df_keys := ["Y"; "A"; "B"]%string;
     df_valid := fun _ _ => rows;
     df_pearson := scenario_pearson;
     df_text := fun _ => None |}.

Definition scenario_fs (rows : nat) (fname delimeter decimal : string)
  : result DataFrame :=
  if String.eqb fname "data.csv"%string then Ok (scenario rows) else Raise OSError.


(** A matrix whose entry for [A] with itself is zero, and a vector of
    dependent correlations, to score a combination of zero denominator. *)
Definition degenerate_matrix (a b : var) : option num :=
  if String.eqb a "A"%string then Some (Fin 0)
  else if String.eqb a b then Some (Fin 1)
  else Some (Fin 0).

Definition degenerate_vector (v : var) : option num :=
  if String.eqb v "A"%string then Some (Fin (8 # 10)) else Some (Fin (6 # 10)).

(** The capacity the scorer gives a combination under them. *)
Definition degenerate_score (c : list var) : num :=
  match hellwig_singular degenerate_matrix degenerate_vector c with
  | Ok (_, h) => h
  | Raise _ => NaN
  end.

(** The scenario with a constant column [A]: Pearson's coefficient of
    [A] with any column, itself included, is [nan]. *)
Definition constant_column : DataFrame :=
  {| df_keys := ["Y"; "A"; "B"]%string;
     df_valid := fun _ _ => 10%nat;
     df_pearson := fun a b =>
       if String.eqb a "A"%string || String.eqb b "A"%string then NaN
       else scenario_pearson a b;
     df_text := fun _ => None |}.

Definition constant_column_fs (fname delimeter decimal : string) : result DataFrame :=
  if String.eqb fname "data.csv"%string then Ok constant_column else Raise OSError.

(** The scenario with missing cells: [A] and [B] have ten rows each but
    share a single one, so their correlation is [nan] while each has the
    self-correlation 1. *)
Definition sparse_columns : DataFrame :=
  {| df_keys := ["Y"; "A"; "B"]%string;
     df_valid := fun a b =>
       if (String.eqb a "A"%string && String.eqb b "B"%string)
          || (String.eqb a "B"%string && String.eqb b "A"%string)
       then 1%nat else 10%nat;
     df_pearson := scenario_pearson;
     df_text := fun _ => None |}.



(** The matrix and the vector [main] hands to [hellwig] for the scenario. *)
Definition scenario_matrix : var -> var -> option num :=
  frame_corr (drop (scenario 10) "Y"%string).

Definition scenario_vector (v : var) : option num :=
  if has_column (drop (scenario 10) "Y"%string) v
  then Some (pairwise_corr (scenario 10) "Y"%string v)
  else None.

(** The capacity the scorer gives a combination of the scenario. *)
Definition scenario_score (c : list var) : num :=
  match hellwig_singular scenario_matrix scenario_vector c with
  | Ok (_, h) => h
  | Raise _ => NaN
  end.

(** The capacity the scorer gives a combination, [nan] standing for a
    scoring that raised. *)
Definition score_of (cm : var -> var -> option num) (dv : var -> option num)
    (c : list var) : num :=
  match hellwig_singular cm dv c with
  | Ok (_, h) => h
  | Raise _ => NaN
  end.

(** The command line parsed by the [__main__] block (lines 92 to 105); an
    empty [args_independent_variables] stands for [-id] not given. *)
Record Namespace : Type := {
  args_file : string;
  args_dependent_variable : var;
  args_delimeter : string;
  args_decimal_separator : string;
  args_min : Z;
  args_max : Z;
  args_independent_variables : list var
}.

(** The two positional arguments alone: every option takes its default. *)
Definition parse_positional (file : string) (dependent_variable : var) : Namespace :=
  {| args_file := file;
     args_dependent_variable := dependent_variable;
     args_delimeter := ";";
     args_decimal_separator := ",";
     args_min := 1;
     args_max := -1;
     args_independent_variables := [] |}.

(** Line 106: the call of [main] on the parsed arguments. *)
Definition script (read_csv : string -> string -> string -> result DataFrame)
    (args : Namespace) : list event * result (list var * num) :=
  main read_csv (args_file args) (args_dependent_variable args)
    (args_independent_variables args) (args_delimeter args)
    (args_decimal_separator args) (args_min args) (args_max args).

(** * Properties *)

(** ** Numbers *)

Lemma num_eq_refl (x : num) : num_eq x x.
Proof. destruct x; simpl; auto. reflexivity. Qed.

Lemma num_eq_sym (x y : num) : num_eq x y -> num_eq y x.
Proof. destruct x, y; simpl; auto. intros H; symmetry; exact H. Qed.

Lemma num_eq_trans (x y z : num) : num_eq x y -> num_eq y z -> num_eq x z.
Proof.
  destruct x, y, z; simpl; auto; try contradiction.
  intros H1 H2; rewrite H1; exact H2.
Qed.

Lemma add_proper (x x' y y' : num) :
  num_eq x x' -> num_eq y y' -> num_eq (Np.add x y) (Np.add x' y').
Proof.
  destruct x, x', y, y'; simpl; auto; try contradiction.
  intros H1 H2; rewrite H1, H2; reflexivity.
Qed.

Lemma add_assoc (x y z : num) :
  num_eq (Np.add (Np.add x y) z) (Np.add x (Np.add y z)).
Proof.
  destruct x, y, z; simpl; auto. symmetry; apply Qplus_assoc.
Qed.

Lemma add_zero_l (x : num) : num_eq (Np.add Np.zero x) x.
Proof. destruct x; simpl; auto. apply Qplus_0_l. Qed.

Lemma add_zero_r (x : num) : num_eq (Np.add x Np.zero) x.
Proof. destruct x; simpl; auto. apply Qplus_0_r. Qed.

Lemma Qeq_bool_proper (a b c : Q) : a == b -> Qeq_bool a c = Qeq_bool b c.
Proof.
  intros H. destruct (Qeq_bool a c) eqn:Ea, (Qeq_bool b c) eqn:Eb; auto.
  - apply Qeq_bool_eq in Ea. apply Qeq_bool_neq in Eb. exfalso; apply Eb.
    rewrite <- H; exact Ea.
  - apply Qeq_bool_eq in Eb. apply Qeq_bool_neq in Ea. exfalso; apply Ea.
    rewrite H; exact Eb.
Qed.

Lemma Qle_bool_proper (a b c : Q) : a == b -> Qle_bool c a = Qle_bool c b.
Proof.
  intros H. destruct (Qle_bool c a) eqn:Ea, (Qle_bool c b) eqn:Eb; auto.
  - apply Qle_bool_iff in Ea. rewrite H in Ea. apply Qle_bool_iff in Ea. congruence.
  - apply Qle_bool_iff in Eb. rewrite <- H in Eb. apply Qle_bool_iff in Eb. congruence.
Qed.

Lemma div_proper (x x' y y' : num) :
  num_eq x x' -> num_eq y y' -> num_eq (Np.div x y) (Np.div x' y').
Proof.
  destruct x as [a| | |], x' as [a'| | |], y as [b| | |], y' as [b'| | |];
    simpl; auto; try contradiction; intros H1 H2.
  - rewrite (Qeq_bool_proper _ _ 0 H2).
    destruct (Qeq_bool b' 0) eqn:E.
    + rewrite (Qcompare_comp a a' H1 0 0 (Qeq_refl 0)).
      destruct (a' ?= 0); simpl; auto.
    + simpl. apply Qeq_bool_neq in E. rewrite H1, H2. reflexivity.
  - reflexivity.
  - reflexivity.
  - rewrite (Qle_bool_proper _ _ 0 H2). destruct (Qle_bool 0 b'); simpl; auto.
  - rewrite (Qle_bool_proper _ _ 0 H2). destruct (Qle_bool 0 b'); simpl; auto.
Qed.

Lemma num_le_lt_trans (x y z : num) :
  x <> NaN -> y <> NaN -> num_le x y -> num_lt y z -> num_lt x z.
Proof.
  unfold num_le, num_lt.
  destruct x as [a| | |], y as [b| | |], z as [c| | |]; simpl;
    intros Hx Hn H1 H2; try congruence; auto.
  apply negb_false_iff in H1. apply negb_true_iff in H2. apply negb_true_iff.
  apply Qle_bool_iff in H1.
  destruct (Qle_bool c a) eqn:E; auto. apply Qle_bool_iff in E.
  assert (Hcb : c <= b) by lra. apply Qle_bool_iff in Hcb. congruence.
Qed.

Lemma num_lt_le (x y : num) : num_lt x y -> num_le x y.
Proof.
  unfold num_le, num_lt.
  destruct x as [a| | |], y as [b| | |]; simpl; intros H; try congruence; auto.
  apply negb_true_iff in H. apply negb_false_iff.
  destruct (Qle_bool a b) eqn:E; auto.
  assert (Hn : ~ b <= a) by (intro Hc; apply Qle_bool_iff in Hc; congruence).
  assert (Hn' : ~ a <= b) by (intro Hc; apply Qle_bool_iff in Hc; congruence).
  lra.
Qed.

Lemma num_le_refl (x : num) : num_le x x.
Proof.
  unfold num_le. destruct x as [a| | |]; simpl; auto.
  apply negb_false_iff. apply Qle_bool_iff. lra.
Qed.

Lemma num_lt_trans (x y z : num) :
  y <> NaN -> num_lt x y -> num_lt y z -> num_lt x z.
Proof.
  intros Hy H1 H2. apply num_le_lt_trans with y; auto.
  - intros ->. unfold num_lt in H1. destruct y; discriminate.
  - apply num_lt_le; exact H1.
Qed.

Lemma num_le_trans (x y z : num) :
  y <> NaN -> num_le x y -> num_le y z -> num_le x z.
Proof.
  unfold num_le.
  destruct x as [a| | |], y as [b| | |], z as [c| | |]; simpl;
    intros Hn H1 H2; try congruence; auto.
  apply negb_false_iff in H1. apply negb_false_iff in H2. apply negb_false_iff.
  apply Qle_bool_iff in H1. apply Qle_bool_iff in H2. apply Qle_bool_iff. lra.
Qed.

(** ** Loops *)

Lemma for_each_ok {S X : Type} (body : S -> X -> result S) (step : S -> X -> S)
    (xs : list X) :
  (forall s x, In x xs -> body s x = Ok (step s x)) ->
  forall s, for_each body s xs = Ok (fold_left step xs s).
Proof.
  induction xs as [|x xs IH]; intros Hbody s; simpl.
  - reflexivity.
  - rewrite Hbody by (left; reflexivity). simpl.
    apply IH. intros s' y Hy. apply Hbody. right; exact Hy.
Qed.

Lemma parallel_ok {X Y : Type} (f : X -> result Y) (g : X -> Y) (xs : list X) :
  (forall x, In x xs -> f x = Ok (g x)) -> parallel f xs = Ok (map g xs).
Proof.
  induction xs as [|x xs IH]; intros Hf; simpl.
  - reflexivity.
  - rewrite Hf by (left; reflexivity). simpl.
    rewrite IH by (intros y Hy; apply Hf; right; exact Hy). reflexivity.
Qed.

Lemma fold_left_sum {X : Type} (f : X -> num) (l : list X) (a : num) :
  num_eq (fold_left (fun acc v => Np.add acc (f v)) l a)
         (Np.add a (sum_num (map f l))).
Proof.
  revert a. induction l as [|x l IH]; intros a; simpl.
  - apply num_eq_sym, add_zero_r.
  - eapply num_eq_trans; [apply IH|]. apply add_assoc.
Qed.

Lemma sum_num_ext {X : Type} (f g : X -> num) (l : list X) :
  (forall v, In v l -> num_eq (f v) (g v)) ->
  num_eq (sum_num (map f l)) (sum_num (map g l)).
Proof.
  induction l as [|x l IH]; intros H; simpl.
  - reflexivity.
  - apply add_proper.
    + apply H; left; reflexivity.
    + apply IH. intros v Hv. apply H; right; exact Hv.
Qed.

Lemma fold_left_Fin {X : Type} (f : X -> Q) (l : list X) (a : Q) :
  fold_left (fun acc v => Np.add acc (Fin (f v))) l (Fin a)
  = Fin (fold_left (fun acc v => acc + f v) l a).
Proof.
  revert a. induction l as [|x l IH]; intros a; simpl; [reflexivity|apply IH].
Qed.

Lemma fold_left_Qsum {X : Type} (f : X -> Q) (l : list X) (a : Q) :
  fold_left (fun acc v => acc + f v) l a == a + Qsum (map f l).
Proof.
  revert a. induction l as [|x l IH]; intros a; simpl.
  - lra.
  - rewrite IH. lra.
Qed.

Lemma Qsum_nonneg {X : Type} (f : X -> Q) (l : list X) :
  (forall v, In v l -> 0 <= f v) -> 0 <= Qsum (map f l).
Proof.
  induction l as [|x l IH]; intros H; simpl.
  - lra.
  - assert (0 <= f x) by (apply H; left; reflexivity).
    assert (0 <= Qsum (map f l)) by (apply IH; intros v Hv; apply H; right; exact Hv).
    lra.
Qed.

Lemma Qsum_le {X : Type} (f g : X -> Q) (l : list X) :
  (forall v, In v l -> f v <= g v) -> Qsum (map f l) <= Qsum (map g l).
Proof.
  induction l as [|x l IH]; intros H; simpl.
  - lra.
  - assert (f x <= g x) by (apply H; left; reflexivity).
    assert (Qsum (map f l) <= Qsum (map g l))
      by (apply IH; intros v Hv; apply H; right; exact Hv).
    lra.
Qed.

(** ** The scorer *)

Lemma denominator_loop_ok (cm : var -> var -> option num) (corr : var -> num)
    (ref : var) (rest : list var) :
  (forall v, In v (ref :: rest) -> cm ref v = Some (corr v)) ->
  denominator_loop cm (ref :: rest)
  = Ok (fold_left (fun acc v => Np.add acc (Np.abs (corr v))) (ref :: rest) Np.zero).
Proof.
  intros H. unfold denominator_loop.
  apply for_each_ok. intros s x Hx. simpl nth_error. cbv beta iota.
  unfold bind at 1. rewrite (H x Hx). reflexivity.
Qed.

Lemma capacity_loop_ok (dv : var -> option num) (dvec : var -> num) (D : num)
    (C : list var) :
  (forall v, In v C -> dv v = Some (dvec v)) ->
  capacity_loop dv D C
  = Ok (fold_left (fun acc v => Np.add acc (Np.div (Np.square (dvec v)) D)) C Np.zero).
Proof.
  intros H. unfold capacity_loop.
  apply for_each_ok. intros s x Hx. rewrite (H x Hx). reflexivity.
Qed.

Lemma hellwig_singular_fst (cm : var -> var -> option num) (dv : var -> option num)
    (C : list var) (r : list var * num) :
  hellwig_singular cm dv C = Ok r -> fst r = C.
Proof.
  unfold hellwig_singular.
  destruct (denominator_loop cm C) as [D|e]; simpl; [|discriminate].
  destruct (capacity_loop dv D C) as [h|e]; simpl; [|discriminate].
  intros H; inversion H; reflexivity.
Qed.

(** C2.  For a combination whose entries are all present in the matrix and
    in the vector, the scorer computes the reference denominator
    [D = sum |corr(v_1, v)|], divides each squared dependent correlation by
    it, and returns the sum of these individual capacities. *)
Theorem hellwig_singular_formula (cm : var -> var -> option num)
    (dv : var -> option num) (corr : var -> var -> num) (dvec : var -> num)
    (C : list var) :
  (forall a b, In a C -> In b C -> cm a b = Some (corr a b)) ->
  (forall v, In v C -> dv v = Some (dvec v)) ->
  exists D h,
    denominator_loop cm C = Ok D /\
    num_eq D (reference_denominator corr C) /\
    hellwig_singular cm dv C = Ok (C, h) /\
    num_eq h (total_capacity corr dvec C).
Proof.
  intros Hcm Hdv.
  destruct C as [|ref rest].
  - exists Np.zero, Np.zero. repeat split; reflexivity.
  - set (C := ref :: rest) in *.
    pose (D := fold_left (fun acc v => Np.add acc (Np.abs (corr ref v))) C Np.zero).
    assert (HD : denominator_loop cm C = Ok D).
    { apply denominator_loop_ok. intros v Hv. apply Hcm; [left; reflexivity|exact Hv]. }
    assert (HDeq : num_eq D (reference_denominator corr C)).
    { unfold D, reference_denominator, C.
      eapply num_eq_trans; [apply fold_left_sum|]. apply add_zero_l. }
    exists D.
    exists (fold_left (fun acc v => Np.add acc (Np.div (Np.square (dvec v)) D)) C Np.zero).
    split; [exact HD|]. split; [exact HDeq|]. split.
    + unfold hellwig_singular. rewrite HD. simpl bind.
      rewrite (@capacity_loop_ok dv dvec D C Hdv). reflexivity.
    + eapply num_eq_trans; [apply fold_left_sum|].
      eapply num_eq_trans; [apply add_zero_l|].
      unfold total_capacity. apply sum_num_ext. intros v _.
      unfold individual_capacity. apply div_proper; [apply num_eq_refl|exact HDeq].
Qed.

(** C6.  A single variable whose self-correlation is 1 has the square of
    its dependent correlation as total capacity. *)
Theorem hellwig_singular_single (cm : var -> var -> option num)
    (dv : var -> option num) (v : var) (one x : num) :
  cm v v = Some one -> num_eq one (Fin 1) -> dv v = Some x ->
  exists h, hellwig_singular cm dv [v] = Ok ([v], h) /\ num_eq h (Np.square x).
Proof.
  intros Hcm Hone Hdv.
  destruct one as [q| | |]; simpl in Hone; try contradiction.
  unfold hellwig_singular, denominator_loop, capacity_loop. simpl.
  rewrite Hcm. simpl. rewrite Hdv. simpl.
  eexists; split; [reflexivity|].
  assert (Hd : 0 + Qabs q == 1).
  { rewrite Hone. simpl. reflexivity. }
  eapply num_eq_trans; [apply add_zero_l|].
  eapply num_eq_trans.
  - apply (@div_proper (Np.square x) (Np.square x) (Fin (0 + Qabs q)) (Fin 1));
      [apply num_eq_refl|exact Hd].
  - destruct x as [d| | |]; simpl; auto. field.
Qed.

(** *** Finite entries *)

Lemma capacity_loop_finite (dv : var -> option num) (d : var -> Q) (D : Q)
    (C : list var) :
  ~ D == 0 ->
  (forall v, In v C -> dv v = Some (Fin (d v))) ->
  capacity_loop dv (Fin D) C
  = Ok (Fin (fold_left (fun acc v => acc + d v * d v / D) C 0)).
Proof.
  intros HD Hdv.
  rewrite (@capacity_loop_ok dv (fun v => Fin (d v)) (Fin D) C Hdv).
  f_equal. unfold Np.zero. rewrite <- fold_left_Fin. f_equal.
  simpl. destruct (Qeq_bool D 0) eqn:E; [|reflexivity].
  apply Qeq_bool_eq in E. contradiction.
Qed.

Lemma square_over_ge_one (x D : Q) : 1 <= D -> 0 <= x * x / D /\ x * x / D <= x * x.
Proof.
  intros HD.
  assert (Hx : 0 <= x * x) by nra.
  assert (Hpos : 0 < D) by lra.
  split.
  - apply Qle_shift_div_l; [exact Hpos|]. lra.
  - apply Qle_shift_div_r; [exact Hpos|]. nra.
Qed.

(** C10, as the code has it.  With entries that are numbers of absolute
    value at most 1, as correlations are, and a reference variable whose
    self-correlation is 1, the denominator is at least 1, so no division by
    zero happens, and the capacity returned is a finite number between 0 and
    the sum of the squared dependent correlations. *)
Theorem hellwig_singular_bounds (cm : var -> var -> option num)
    (dv : var -> option num) (m d : var -> Q) (ref : var) (rest : list var) :
  (forall v, In v (ref :: rest) -> cm ref v = Some (Fin (m v)) /\ Qabs (m v) <= 1) ->
  m ref == 1 ->
  (forall v, In v (ref :: rest) -> dv v = Some (Fin (d v)) /\ Qabs (d v) <= 1) ->
  exists D h,
    denominator_loop cm (ref :: rest) = Ok (Fin D) /\
    1 <= D /\
    hellwig_singular cm dv (ref :: rest) = Ok (ref :: rest, Fin h) /\
    0 <= h /\
    h <= Qsum (map (fun v => d v * d v) (ref :: rest)).
Proof.
  intros Hcm' Hone Hdv'.
  assert (Hcm : forall v, In v (ref :: rest) -> cm ref v = Some (Fin (m v)))
    by (intros v Hv; apply (Hcm' v Hv)).
  assert (Hdv : forall v, In v (ref :: rest) -> dv v = Some (Fin (d v)))
    by (intros v Hv; apply (Hdv' v Hv)).
  clear Hcm' Hdv'.
  set (C := ref :: rest) in *.
  pose (D := fold_left (fun acc v => acc + Qabs (m v)) C 0).
  pose (h := fold_left (fun acc v => acc + d v * d v / D) C 0).
  assert (HDsum : D == Qsum (map (fun v => Qabs (m v)) C)).
  { unfold D. rewrite fold_left_Qsum. lra. }
  assert (HD1 : 1 <= D).
  { rewrite HDsum. unfold C. simpl. rewrite Hone.
    assert (0 <= Qsum (map (fun v => Qabs (m v)) rest))
      by (apply Qsum_nonneg; intros; apply Qabs_nonneg).
    change (Qabs 1) with 1. lra. }
  assert (Hloop : denominator_loop cm C = Ok (Fin D)).
  { unfold C. rewrite (@denominator_loop_ok cm (fun v => Fin (m v)) ref rest Hcm).
    f_equal. apply (fold_left_Fin (fun v => Qabs (m v))). }
  assert (Hhsum : h == Qsum (map (fun v => d v * d v / D) C)).
  { unfold h. rewrite fold_left_Qsum. lra. }
  exists D, h.
  split; [exact Hloop|]. split; [exact HD1|]. split.
  - unfold hellwig_singular. rewrite Hloop. simpl bind.
    rewrite (@capacity_loop_finite dv d D C); [reflexivity| |exact Hdv].
    intros H0. rewrite H0 in HD1. lra.
  - split.
    + rewrite Hhsum. apply Qsum_nonneg. intros v _.
      apply (square_over_ge_one (d v) D HD1).
    + rewrite Hhsum. apply Qsum_le. intros v _.
      apply (square_over_ge_one (d v) D HD1).
Qed.

(** ** Selection *)

Lemma max_from_split {A : Type} (key : A -> num) (l : list A) :
  forall pre best mid,
    (forall x, In x (pre ++ best :: mid ++ l) -> key x <> NaN) ->
    (forall x, In x pre -> num_lt (key x) (key best)) ->
    (forall x, In x mid -> num_le (key x) (key best)) ->
    exists l1 b l2,
      pre ++ best :: mid ++ l = l1 ++ b :: l2 /\
      max_from key best l = b /\
      (forall x, In x l1 -> num_lt (key x) (key b)) /\
      (forall x, In x l2 -> num_le (key x) (key b)).
Proof.
  induction l as [|x l IH]; intros pre best mid Hnan Hpre Hmid.
  - exists pre, best, mid. rewrite app_nil_r. simpl. auto.
  - assert (Hbest : key best <> NaN).
    { apply Hnan. apply in_or_app. right. left. reflexivity. }
    simpl. destruct (Np.gt (key x) (key best)) eqn:E.
    + destruct (IH (pre ++ best :: mid) x []) as (l1 & b & l2 & Heq & Hmax & H1 & H2).
      * intros y Hy. apply Hnan. simpl in Hy. rewrite <- app_assoc in Hy. exact Hy.
      * intros y Hy. apply in_app_or in Hy. destruct Hy as [Hy|[Hy|Hy]].
        -- apply num_lt_trans with (key best); auto.
        -- subst y. exact E.
        -- apply num_le_lt_trans with (key best); auto.
           apply Hnan. apply in_or_app. right. right. apply in_or_app. left. exact Hy.
      * intros y [].
      * exists l1, b, l2. simpl in Heq. rewrite <- app_assoc in Heq. auto.
    + destruct (IH pre best (mid ++ [x])) as (l1 & b & l2 & Heq & Hmax & H1 & H2).
      * intros y Hy. apply Hnan. rewrite <- app_assoc in Hy. exact Hy.
      * exact Hpre.
      * intros y Hy. apply in_app_or in Hy. destruct Hy as [Hy|[Hy|[]]].
        -- auto.
        -- subst y. exact E.
      * exists l1, b, l2. rewrite <- app_assoc in Heq. auto.
Qed.

Lemma max_from_first_max {A : Type} (key : A -> num) (b0 : A) (l : list A) :
  (forall x, In x (b0 :: l) -> key x <> NaN) ->
  exists l1 b l2,
    b0 :: l = l1 ++ b :: l2 /\
    max_from key b0 l = b /\
    (forall x, In x l1 -> num_lt (key x) (key b)) /\
    (forall x, In x l2 -> num_le (key x) (key b)).
Proof.
  intros Hnan.
  apply (@max_from_split A key l [] b0 []); simpl; auto; intros x [].
Qed.

Lemma max_from_In {A : Type} (key : A -> num) (l : list A) (b0 : A) :
  In (max_from key b0 l) (b0 :: l).
Proof.
  revert b0. induction l as [|x l IH]; intros b0; simpl.
  - left; reflexivity.
  - destruct (IH (if Np.gt (key x) (key b0) then x else b0)) as [H|H].
    + destruct (Np.gt (key x) (key b0)); rewrite <- H; auto.
    + right; right; exact H.
Qed.

Lemma max_from_scored (score : list var -> num) (l : list (list var)) (c0 : list var) :
  max_from snd (c0, score c0) (map (fun c => (c, score c)) l)
  = (max_from score c0 l, score (max_from score c0 l)).
Proof.
  revert c0. induction l as [|x l IH]; intros c0; simpl.
  - reflexivity.
  - destruct (Np.gt (score x) (score c0)); apply IH.
Qed.

Lemma size_best_In (score : list var -> num) (L : list (list var)) :
  L <> [] -> In (size_best score L) L.
Proof.
  destruct L as [|c0 l]; [congruence|]. intros _. apply max_from_In.
Qed.

Lemma size_best_ge (score : list var -> num) (L : list (list var)) (c : list var) :
  (forall x, In x L -> score x <> NaN) ->
  In c L -> num_le (score c) (score (size_best score L)).
Proof.
  intros Hnan Hc. destruct L as [|c0 l]; [contradiction|].
  destruct (max_from_first_max score c0 l Hnan) as (l1 & b & l2 & Heq & Hmax & H1 & H2).
  simpl. rewrite Hmax. rewrite Heq in Hc.
  apply in_app_or in Hc. destruct Hc as [Hc|[Hc|Hc]].
  - apply num_lt_le. auto.
  - subst c. apply num_le_refl.
  - auto.
Qed.

(** The loop of [hellwig] appends the winner of each size. *)
Lemma hellwig_loop (cm : var -> var -> option num) (dv : var -> option num)
    (score : list var -> num) (vcs : list (list (list var))) :
  (forall L, In L vcs -> L <> []) ->
  (forall L c, In L vcs -> In c L -> hellwig_singular cm dv c = Ok (c, score c)) ->
  forall acc,
    for_each (fun best_info combination =>
                h <- parallel (hellwig_singular cm dv) combination ;;
                h <- py_max snd h ;;
                Ok (best_info ++ [h]))
             acc vcs
    = Ok (acc ++ map (fun L => (size_best score L, score (size_best score L))) vcs).
Proof.
  induction vcs as [|L vcs IH]; intros Hne Hs acc; simpl.
  - rewrite app_nil_r. reflexivity.
  - rewrite (@parallel_ok _ _ (hellwig_singular cm dv) (fun c => (c, score c)) L)
      by (intros c Hc; apply (Hs L c); [left; reflexivity|exact Hc]).
    simpl bind.
    destruct L as [|c0 l]; [exfalso; apply (Hne []); [left; reflexivity|reflexivity]|].
    simpl map. simpl py_max. simpl bind. rewrite max_from_scored.
    rewrite IH.
    + rewrite <- app_assoc. reflexivity.
    + intros L' HL'. apply Hne. right; exact HL'.
    + intros L' c HL' Hc. apply (Hs L' c); [right; exact HL'|exact Hc].
Qed.

Lemma hellwig_two_level (cm : var -> var -> option num) (dv : var -> option num)
    (score : list var -> num) (L0 : list (list var)) (Ls : list (list (list var))) :
  (forall L, In L (L0 :: Ls) -> L <> []) ->
  (forall L c, In L (L0 :: Ls) -> In c L -> hellwig_singular cm dv c = Ok (c, score c)) ->
  let best := max_from score (size_best score L0) (map (size_best score) Ls) in
  hellwig cm dv (L0 :: Ls) = Ok (best, score best).
Proof.
  intros Hne Hs best. unfold hellwig.
  rewrite (@hellwig_loop cm dv score (L0 :: Ls) Hne Hs []).
  simpl bind. simpl app. simpl map. simpl py_max.
  rewrite <- (map_map (size_best score) (fun c => (c, score c))).
  rewrite max_from_scored. reflexivity.
Qed.

(** The winner over all sizes is the first combination of maximal capacity
    in the order of evaluation. *)
Lemma hellwig_first_max (cm : var -> var -> option num) (dv : var -> option num)
    (score : list var -> num) (vcs : list (list (list var))) :
  vcs <> [] ->
  (forall L, In L vcs -> L <> []) ->
  (forall L c, In L vcs -> In c L ->
               hellwig_singular cm dv c = Ok (c, score c) /\ score c <> NaN) ->
  exists before best after,
    List.concat vcs = before ++ best :: after /\
    hellwig cm dv vcs = Ok (best, score best) /\
    (forall c, In c before -> num_lt (score c) (score best)) /\
    (forall c, In c after -> num_le (score c) (score best)).
Proof.
  intros Hvcs Hne Hs.
  destruct vcs as [|L0 Ls]; [congruence|]. clear Hvcs.
  assert (Hnan : forall L c, In L (L0 :: Ls) -> In c L -> score c <> NaN)
    by (intros L c HL Hc; apply (Hs L c HL Hc)).
  assert (Hbest_nan : forall L, In L (L0 :: Ls) -> score (size_best score L) <> NaN).
  { intros L HL. apply (Hnan L); [exact HL|]. apply size_best_In. apply Hne; exact HL. }
  destruct (@max_from_first_max _ score (size_best score L0) (map (size_best score) Ls))
    as (B1 & b & B2 & Heq & Hmax & HB1 & HB2).
  { intros x Hx. change (In x (map (size_best score) (L0 :: Ls))) in Hx.
    apply in_map_iff in Hx. destruct Hx as (L & <- & HL). apply Hbest_nan; exact HL. }
  change (map (size_best score) (L0 :: Ls) = B1 ++ b :: B2) in Heq.
  apply map_eq_app in Heq. destruct Heq as (V1 & V2' & HV & HV1 & HV2').
  apply map_eq_cons in HV2'. destruct HV2' as (Lj & V2 & -> & Hj & HV2).
  assert (HLj : In Lj (L0 :: Ls)).
  { rewrite HV. apply in_or_app. right. left. reflexivity. }
  assert (HLjne : Lj <> []) by (apply Hne; exact HLj).
  destruct Lj as [|c0 l]; [congruence|].
  destruct (@max_from_first_max _ score c0 l (fun x Hx => Hnan _ x HLj Hx))
    as (l1 & b' & l2 & HeqL & Hmax' & Hl1 & Hl2).
  simpl in Hj. rewrite Hmax' in Hj. subst b'.
  exists (List.concat V1 ++ l1), b, (l2 ++ List.concat V2).
  split; [|split; [|split]].
  - rewrite HV, concat_app, concat_cons, HeqL.
    rewrite <- !app_assoc. reflexivity.
  - rewrite <- Hmax.
    apply (@hellwig_two_level cm dv score L0 Ls Hne).
    intros L c HL Hc. apply (Hs L c HL Hc).
  - intros c Hc. apply in_app_or in Hc. destruct Hc as [Hc|Hc]; [|auto].
    apply in_concat in Hc. destruct Hc as (L & HL & Hc).
    assert (HL' : In L (L0 :: Ls)) by (rewrite HV; apply in_or_app; left; exact HL).
    apply num_le_lt_trans with (score (size_best score L)).
    + apply (Hnan L c HL' Hc).
    + apply Hbest_nan; exact HL'.
    + apply size_best_ge; [intros x Hx; apply (Hnan L x HL' Hx)|exact Hc].
    + apply HB1. rewrite <- HV1. apply in_map. exact HL.
  - intros c Hc. apply in_app_or in Hc. destruct Hc as [Hc|Hc]; [auto|].
    apply in_concat in Hc. destruct Hc as (L & HL & Hc).
    assert (HL' : In L (L0 :: Ls)).
    { rewrite HV. apply in_or_app. right. right. exact HL. }
    apply num_le_trans with (score (size_best score L)).
    + apply Hbest_nan; exact HL'.
    + apply size_best_ge; [intros x Hx; apply (Hnan L x HL' Hx)|exact Hc].
    + apply HB2. rewrite <- HV2. apply in_map. exact HL.
Qed.

Lemma num_le_Fin (a b : Q) : num_le (Fin a) (Fin b) <-> a <= b.
Proof.
  unfold num_le. simpl. rewrite negb_false_iff. apply Qle_bool_iff.
Qed.

Lemma num_lt_Fin (a b : Q) : num_lt (Fin a) (Fin b) <-> a < b.
Proof.
  unfold num_lt. simpl. rewrite negb_true_iff. split.
  - intros H. apply Qnot_le_lt. intros Hle. apply Qle_bool_iff in Hle. congruence.
  - intros H. destruct (Qle_bool b a) eqn:E; auto.
    apply Qle_bool_iff in E. lra.
Qed.

(** C8, as the code has it.  When every per-size enumeration is non-empty
    and every evaluated combination gets a capacity that is a number (not
    [nan], which no comparison orders), the capacity of the
    combination [hellwig] returns is at least the capacity of every
    evaluated combination, and every combination evaluated before it (the
    smaller sizes, then the earlier ones of its own size) has a strictly
    smaller capacity: on a tie the first one met is kept. *)
Theorem hellwig_selects_first_maximum (cm : var -> var -> option num)
    (dv : var -> option num) (score : list var -> num)
    (vcs : list (list (list var))) :
  vcs <> [] ->
  (forall L, In L vcs -> L <> []) ->
  (forall L c, In L vcs -> In c L ->
               hellwig_singular cm dv c = Ok (c, score c) /\ score c <> NaN) ->
  exists before best after,
    List.concat vcs = before ++ best :: after /\
    hellwig cm dv vcs = Ok (best, score best) /\
    (forall c, In c (List.concat vcs) -> num_le (score c) (score best)) /\
    (forall c, In c before -> num_lt (score c) (score best)).
Proof.
  intros Hvcs Hne Hs.
  destruct (hellwig_first_max cm dv score vcs Hvcs Hne Hs)
    as (before & best & after & Heq & Hres & Hbefore & Hafter).
  exists before, best, after.
  split; [exact Heq|]. split; [exact Hres|]. split; [|exact Hbefore].
  intros c Hc. rewrite Heq in Hc.
  apply in_app_or in Hc. destruct Hc as [Hc|[Hc|Hc]].
  - apply num_lt_le. auto.
  - subst c. apply num_le_refl.
  - auto.
Qed.

(** ** A zero denominator *)

Lemma square_over_zero (x : num) (z : Q) :
  z == 0 ->
  Np.div (Np.square x) (Fin z) = PInf \/ Np.div (Np.square x) (Fin z) = NaN.
Proof.
  intros Hz.
  assert (Ez : Qeq_bool z 0 = true) by (apply Qeq_bool_iff; exact Hz).
  assert (Ele : Qle_bool 0 z = true) by (apply Qle_bool_iff; rewrite Hz; apply Qle_refl).
  destruct x as [a| | |]; simpl.
  - rewrite Ez. destruct (a * a ?= 0) eqn:E; auto.
    exfalso. apply Qlt_alt in E. nra.
  - rewrite Ele. left; reflexivity.
  - rewrite Ele. left; reflexivity.
  - right; reflexivity.
Qed.

Lemma add_inf_or_nan (x y : num) :
  (x = PInf \/ x = NaN) -> (y = PInf \/ y = NaN) ->
  Np.add x y = PInf \/ Np.add x y = NaN.
Proof.
  intros [->| ->] [->| ->]; simpl; auto.
Qed.

Lemma fold_zero_denominator (dvec : var -> num) (z : Q) (l : list var) (acc : num) :
  z == 0 ->
  (acc = PInf \/ acc = NaN) ->
  fold_left (fun acc v => Np.add acc (Np.div (Np.square (dvec v)) (Fin z))) l acc = PInf \/
  fold_left (fun acc v => Np.add acc (Np.div (Np.square (dvec v)) (Fin z))) l acc = NaN.
Proof.
  intros Hz. revert acc. induction l as [|x l IH]; intros acc Hacc; simpl.
  - exact Hacc.
  - apply IH. apply add_inf_or_nan; [exact Hacc|]. apply square_over_zero. exact Hz.
Qed.

Lemma capacity_loop_zero_denominator (dv : var -> option num) (dvec : var -> num)
    (z : Q) (C : list var) :
  C <> [] -> z == 0 ->
  (forall v, In v C -> dv v = Some (dvec v)) ->
  exists h, capacity_loop dv (Fin z) C = Ok h /\ (h = PInf \/ h = NaN).
Proof.
  intros HC Hz Hdv.
  rewrite (capacity_loop_ok dv dvec (Fin z) C Hdv).
  eexists. split; [reflexivity|].
  destruct C as [|x l]; [congruence|]. cbn [fold_left].
  apply fold_zero_denominator; [exact Hz|].
  destruct (square_over_zero (dvec x) z Hz) as [E|E]; rewrite E; simpl; auto.
Qed.

(** C3, as the code has it.  A combination whose reference denominator is
    zero is scored like any other: the division is carried out, nothing is
    raised, and the capacity returned is [inf] or [nan], never a finite
    number.  Nothing is excluded: when such a combination has the capacity
    [inf] and is among the evaluated ones (all of them scored with a
    capacity that is a number), the search returns a winner of infinite
    capacity. *)
Theorem zero_denominator_not_excluded (cm : var -> var -> option num)
    (dv : var -> option num) (dvec : var -> num) (C : list var) (D : num) :
  C <> [] ->
  denominator_loop cm C = Ok D ->
  num_eq D Np.zero ->
  (forall v, In v C -> dv v = Some (dvec v)) ->
  exists h,
    hellwig_singular cm dv C = Ok (C, h) /\
    (h = PInf \/ h = NaN) /\
    forall (score : list var -> num) (vcs : list (list (list var)))
           (L : list (list var)),
      In L vcs -> In C L ->
      (forall L', In L' vcs -> L' <> []) ->
      (forall L' c, In L' vcs -> In c L' ->
                    hellwig_singular cm dv c = Ok (c, score c) /\ score c <> NaN) ->
      exists best, In best (List.concat vcs) /\ hellwig cm dv vcs = Ok (best, PInf).
Proof.
  intros HC HD Hzero Hdv.
  destruct D as [z| | |]; simpl in Hzero; try contradiction.
  destruct (capacity_loop_zero_denominator dv dvec z C HC Hzero Hdv) as (h & Hh & Hinf).
  assert (Hscore : hellwig_singular cm dv C = Ok (C, h)).
  { unfold hellwig_singular. rewrite HD. simpl bind. rewrite Hh. reflexivity. }
  exists h. split; [exact Hscore|]. split; [exact Hinf|].
  intros score vcs L HL HCL Hne Hs.
  assert (Hvcs : vcs <> []) by (intros ->; contradiction).
  destruct (hellwig_first_max cm dv score vcs Hvcs Hne Hs)
    as (before & best & after & Heq & Hres & Hbefore & Hafter).
  assert (HCscore : score C = PInf).
  { destruct (Hs L C HL HCL) as [HsC Hn]. rewrite Hscore in HsC.
    injection HsC as Hh'. destruct Hinf as [E|E]; rewrite E in Hh'.
    - symmetry. exact Hh'.
    - exfalso. apply Hn. symmetry. exact Hh'. }
  assert (HCin : In C (List.concat vcs)).
  { apply in_concat. exists L. split; assumption. }
  assert (Hbest_in : In best (List.concat vcs)).
  { rewrite Heq. apply in_or_app. right. left. reflexivity. }
  assert (Hle : num_le (score C) (score best)).
  { rewrite Heq in HCin. apply in_app_or in HCin. destruct HCin as [H|[H|H]].
    - apply num_lt_le. auto.
    - subst C. apply num_le_refl.
    - auto. }
  assert (Hbest_nan : score best <> NaN).
  { apply in_concat in Hbest_in. destruct Hbest_in as (L' & HL' & Hb).
    apply (Hs L' best HL' Hb). }
  exists best. split; [exact Hbest_in|].
  rewrite Hres. f_equal. f_equal.
  rewrite HCscore in Hle. unfold num_le in Hle.
  destruct (score best); simpl in Hle; congruence.
Qed.

(** ** The combination generator *)

Lemma binomial_gt (n k : nat) : (n < k)%nat -> binomial n k = 0%nat.
Proof.
  revert k. induction n as [|n IH]; intros k Hk; destruct k as [|k]; simpl; try lia.
  rewrite (IH k) by lia. rewrite (IH (S k)) by lia. reflexivity.
Qed.

Lemma binomial_diag (n : nat) : binomial n n = 1%nat.
Proof.
  induction n as [|n IH]; simpl; [reflexivity|].
  rewrite IH, binomial_gt by lia. reflexivity.
Qed.

(** [binomial n k] is [n! / (k! (n-k)!)]. *)
Lemma binomial_fact (n k : nat) :
  (k <= n)%nat -> (binomial n k * (fact k * fact (n - k)) = fact n)%nat.
Proof.
  revert k. induction n as [|n IH]; intros k Hk.
  - assert (k = 0%nat) by lia. subst k. reflexivity.
  - destruct k as [|k].
    + simpl binomial. rewrite Nat.sub_0_r. simpl fact at 1. lia.
    + cbn [binomial]. destruct (Nat.eq_dec k n) as [->|Hne].
      * rewrite binomial_diag, binomial_gt by lia.
        replace (S n - S n)%nat with 0%nat by lia. simpl fact at 2. lia.
      * assert (Hk' : (k <= n)%nat) by lia.
        assert (Hk'' : (S k <= n)%nat) by lia.
        pose proof (IH k Hk') as IH1. pose proof (IH (S k) Hk'') as IH2.
        replace (S n - S k)%nat with (n - k)%nat by lia.
        replace (n - k)%nat with (S (n - S k)) in * by lia.
        change (fact (S n)) with (S n * fact n)%nat.
        change (fact (S k)) with (S k * fact k)%nat in *.
        change (fact (S (n - S k))) with (S (n - S k) * fact (n - S k))%nat in *.
        nia.
Qed.

Lemma combinations_length {A : Type} (pool : list A) (k : nat) :
  List.length (combinations pool k) = binomial (List.length pool) k.
Proof.
  revert k. induction pool as [|x pool IH]; intros k; destruct k as [|k]; simpl;
    try reflexivity.
  rewrite length_app, length_map, !IH. reflexivity.
Qed.

Lemma combinations_subsequence {A : Type} (pool : list A) (k : nat) (c : list A) :
  In c (combinations pool k) -> List.length c = k /\ subsequence c pool.
Proof.
  revert k c. induction pool as [|x pool IH]; intros k c Hc; destruct k as [|k];
    simpl in Hc.
  - destruct Hc as [<-|[]]. split; [reflexivity|constructor].
  - contradiction.
  - destruct Hc as [<-|[]]. split; [reflexivity|].
    constructor. destruct (IH 0%nat []) as [_ H]; [|exact H].
    destruct pool; simpl; auto.
  - apply in_app_or in Hc. destruct Hc as [Hc|Hc].
    + apply in_map_iff in Hc. destruct Hc as (c' & <- & Hc').
      destruct (IH k c' Hc') as [Hlen Hsub]. split; [simpl; lia|].
      constructor; exact Hsub.
    + destruct (IH (S k) c Hc) as [Hlen Hsub]. split; [exact Hlen|].
      constructor; exact Hsub.
Qed.

Lemma subsequence_In {A : Type} (c l : list A) (x : A) :
  subsequence c l -> In x c -> In x l.
Proof.
  induction 1 as [|y c l Hs IH|y c l Hs IH]; simpl; intros Hx; auto.
  destruct Hx as [Hx|Hx]; auto.
Qed.

Lemma subsequence_NoDup {A : Type} (c l : list A) :
  subsequence c l -> NoDup l -> NoDup c.
Proof.
  induction 1 as [|y c l Hs IH|y c l Hs IH]; intros Hl.
  - constructor.
  - inversion Hl; auto.
  - inversion Hl as [|? ? Hy Hl']; subst. constructor; auto.
    intros Hin. apply Hy. eapply subsequence_In; eauto.
Qed.

(** Two subsequences of a duplicate-free list with the same items are the
    same list. *)
Lemma subsequence_same_items {A : Type} (l c1 c2 : list A) :
  NoDup l -> subsequence c1 l -> subsequence c2 l ->
  (forall x, In x c1 <-> In x c2) -> c1 = c2.
Proof.
  intros Hl H1. revert c2.
  induction H1 as [|y c1 l H1 IH|y c1 l H1 IH]; intros c2 H2 Hsame;
    inversion H2 as [|y' c2' l' H2'|y' c2' l' H2']; subst.
  - reflexivity.
  - inversion Hl; subst. apply IH; auto.
  - inversion Hl as [|? ? Hy Hl']; subst. exfalso. apply Hy.
    apply (subsequence_In c1 l y H1). apply Hsame. left; reflexivity.
  - inversion Hl as [|? ? Hy Hl']; subst. exfalso. apply Hy.
    apply (subsequence_In c2 l y H2'). apply Hsame. left; reflexivity.
  - inversion Hl as [|? ? Hy Hl']; subst. f_equal. apply IH; auto.
    intros x. split; intros Hx.
    + assert (Hx' : In x (y :: c2')) by (apply Hsame; right; exact Hx).
      destruct Hx' as [Hxy|Hx']; [|exact Hx'].
      exfalso. apply Hy. rewrite Hxy. apply (subsequence_In c1 l x H1 Hx).
    + assert (Hx' : In x (y :: c1)) by (apply Hsame; right; exact Hx).
      destruct Hx' as [Hxy|Hx']; [|exact Hx'].
      exfalso. apply Hy. rewrite Hxy. apply (subsequence_In c2' l x H2' Hx).
Qed.

Lemma NoDup_map_cons {A : Type} (x : A) (l : list (list A)) :
  NoDup l -> NoDup (map (cons x) l).
Proof.
  induction 1 as [|c l Hc Hl IH]; simpl; constructor; auto.
  intros Hin. apply in_map_iff in Hin. destruct Hin as (c' & Heq & Hc').
  inversion Heq; subst. contradiction.
Qed.

Lemma combinations_NoDup {A : Type} (pool : list A) (k : nat) :
  NoDup pool -> NoDup (combinations pool k).
Proof.
  revert k. induction pool as [|x pool IH]; intros k Hpool; destruct k as [|k]; simpl.
  - constructor; [intros []|constructor].
  - constructor.
  - constructor; [intros []|constructor].
  - inversion Hpool as [|? ? Hx Hpool']; subst.
    apply NoDup_app.
    + apply NoDup_map_cons. apply IH; exact Hpool'.
    + apply IH; exact Hpool'.
    + intros c Hc Hc'. apply in_map_iff in Hc. destruct Hc as (c' & <- & _).
      apply Hx.
      destruct (combinations_subsequence pool (S k) (x :: c') Hc') as [_ Hsub].
      apply (subsequence_In (x :: c') pool x Hsub). left; reflexivity.
Qed.

Lemma combinations_complete {A : Type} (c pool : list A) :
  subsequence c pool -> In c (combinations pool (List.length c)).
Proof.
  induction 1 as [|x c l Hs IH|x c l Hs IH].
  - left; reflexivity.
  - destruct c as [|y c]; [left; reflexivity|].
    simpl. apply in_or_app. right. exact IH.
  - simpl. apply in_or_app. left. apply in_map. exact IH.
Qed.

Lemma combination_fits (pool : list var) (n : Z) :
  (0 <= n <= Z.of_nat (List.length pool))%Z ->
  combination pool n = Ok (combinations pool (Z.to_nat n)).
Proof.
  intros Hn. unfold combination.
  destruct (n <? 0)%Z eqn:E; [apply Z.ltb_lt in E; lia|].
  destruct (Z.of_nat (List.length pool) <? n)%Z eqn:E2; [apply Z.ltb_lt in E2; lia|].
  rewrite andb_false_r. reflexivity.
Qed.

(** C7.  For a pool of [N] distinct variables and [1 <= k <= N], the
    generator yields [N! / (k! (N-k)!)] combinations, each of [k] distinct
    variables in the order of the pool, every such combination once, and no
    two of them hold the same variables. *)
Theorem combination_enumerates (pool : list var) (k : nat) :
  NoDup pool ->
  (1 <= k <= List.length pool)%nat ->
  exists out,
    combination pool (Z.of_nat k) = Ok out /\
    List.length out = binomial (List.length pool) k /\
    (List.length out * (fact k * fact (List.length pool - k))
     = fact (List.length pool))%nat /\
    (forall c, In c out -> List.length c = k /\ NoDup c /\ subsequence c pool) /\
    (forall c, List.length c = k -> subsequence c pool -> In c out) /\
    NoDup out /\
    (forall c1 c2, In c1 out -> In c2 out ->
                   (forall x, In x c1 <-> In x c2) -> c1 = c2).
Proof.
  intros Hpool Hk.
  exists (combinations pool k).
  split.
  { rewrite combination_fits by lia. rewrite Nat2Z.id. reflexivity. }
  split; [apply combinations_length|].
  split; [rewrite combinations_length; apply binomial_fact; lia|].
  split.
  { intros c Hc. destruct (combinations_subsequence pool k c Hc) as [Hlen Hsub].
    split; [exact Hlen|]. split; [|exact Hsub].
    apply (subsequence_NoDup c pool Hsub Hpool). }
  split.
  { intros c Hlen Hsub. rewrite <- Hlen. apply combinations_complete; exact Hsub. }
  split; [apply combinations_NoDup; exact Hpool|].
  intros c1 c2 H1 H2 Hsame.
  apply (subsequence_same_items pool c1 c2 Hpool).
  - apply (combinations_subsequence pool k c1 H1).
  - apply (combinations_subsequence pool k c2 H2).
  - exact Hsame.
Qed.

(** ** The run *)

Lemma range_In (lo hi k : Z) : In k (range lo hi) <-> (lo <= k < hi)%Z.
Proof.
  unfold range. rewrite in_map_iff. split.
  - intros (i & <- & Hi). apply in_seq in Hi. lia.
  - intros H. exists (Z.to_nat (k - lo)). split; [lia|]. apply in_seq. lia.
Qed.

(** With an explicit [max >= 1] the sizes stop before [max]. *)
Lemma size_range_explicit_max (min max k : Z) (len : nat) :
  (1 <= max)%Z -> In k (size_range min max len) <-> (min <= k < max)%Z.
Proof.
  intros Hmax. unfold size_range.
  destruct (max <? 1)%Z eqn:E; [apply Z.ltb_lt in E; lia|]. apply range_In.
Qed.

Lemma size_range_default_max (min max k : Z) (len : nat) :
  (max < 1)%Z -> In k (size_range min max len) <-> (min <= k <= Z.of_nat len)%Z.
Proof.
  intros Hmax. unfold size_range.
  destruct (max <? 1)%Z eqn:E; [|apply Z.ltb_ge in E; lia].
  rewrite range_In. lia.
Qed.

Lemma size_range_lower (min max k : Z) (len : nat) :
  In k (size_range min max len) -> (min <= k)%Z.
Proof.
  unfold size_range. intros H. apply range_In in H. lia.
Qed.

Lemma dict_get_set {V : Type} (k k' : var) (v : V) (d : dict V) :
  dict_get k (dict_set k' v d) = if String.eqb k k' then Some v else dict_get k d.
Proof.
  induction d as [|[k1 v1] d IH]; simpl.
  - reflexivity.
  - destruct (String.eqb k' k1) eqn:E1; simpl.
    + apply String.eqb_eq in E1. subst k1.
      destruct (String.eqb k k'); reflexivity.
    + rewrite IH. destruct (String.eqb k k1) eqn:E2; [|reflexivity].
      apply String.eqb_eq in E2. subst k1.
      destruct (String.eqb k k') eqn:E3; [|reflexivity].
      apply String.eqb_eq in E3. subst k'. rewrite String.eqb_refl in E1. discriminate.
Qed.

Lemma series_corr_numbers (df : DataFrame) (a b : var) :
  df_text df a = None -> df_text df b = None ->
  series_corr df a b = Ok (pairwise_corr df a b).
Proof.
  intros Ha Hb. unfold series_corr. rewrite Ha, Hb. reflexivity.
Qed.

Lemma yx_corrs_loop_ok (df : DataFrame) (dep : var) (vars : list var) :
  df_text df dep = None ->
  (forall v, In v vars -> has_column df v = true /\ df_text df v = None) ->
  forall yx0, exists yx,
    yx_corrs_loop df dep vars yx0 = (map (EvSeriesCorr dep) vars, Ok yx) /\
    (forall v, In v vars -> dict_get v yx = Some (pairwise_corr df dep v)) /\
    (forall v, ~ In v vars -> dict_get v yx = dict_get v yx0).
Proof.
  intros Hdep. induction vars as [|x vars IH]; intros Hcols yx0.
  - exists yx0. simpl. split; [reflexivity|]. split; [intros v []|reflexivity].
  - destruct (IH (fun v Hv => Hcols v (or_intror Hv))
                 (dict_set x (pairwise_corr df dep x) yx0))
      as (yx & Hloop & Hin & Hout).
    destruct (Hcols x (or_introl eq_refl)) as [Hx Hxnum].
    exists yx. simpl. rewrite Hx, (series_corr_numbers df dep x Hdep Hxnum), Hloop.
    split; [reflexivity|]. split.
    + intros v Hv. destruct (in_dec string_dec v vars) as [Hv'|Hv']; [auto|].
      rewrite (Hout v Hv'), dict_get_set.
      destruct Hv as [->|Hv]; [|contradiction].
      rewrite String.eqb_refl. reflexivity.
    + intros v Hv. rewrite Hout by (intros H; apply Hv; right; exact H).
      rewrite dict_get_set.
      destruct (String.eqb v x) eqn:E; [|reflexivity].
      apply String.eqb_eq in E. subst v. exfalso. apply Hv. left; reflexivity.
Qed.

Lemma parallel_combination (pool : list var) (sizes : list Z) :
  (forall k, In k sizes ->
             (0 <= k)%Z /\
             ((k <= PY_SSIZE_T_MAX)%Z \/ (k <= Z.of_nat (List.length pool))%Z)) ->
  parallel (combination pool) sizes
  = Ok (map (fun k => combinations pool (Z.to_nat k)) sizes).
Proof.
  intros H. apply parallel_ok. intros k Hk. unfold combination.
  destruct (H k Hk) as [H0 Hfit].
  destruct (k <? 0)%Z eqn:E; [apply Z.ltb_lt in E; lia|].
  destruct (PY_SSIZE_T_MAX <? k)%Z eqn:E1; [|reflexivity].
  destruct (Z.of_nat (List.length pool) <? k)%Z eqn:E2; [|reflexivity].
  apply Z.ltb_lt in E1. apply Z.ltb_lt in E2. lia.
Qed.

Lemma first_text_None (df : DataFrame) (keys : list var) :
  (forall k, In k keys -> df_text df k = None) -> first_text df keys = None.
Proof.
  induction keys as [|k keys IH]; intros H; simpl; [reflexivity|].
  rewrite (H k (or_introl eq_refl)). apply IH. intros k' Hk'. apply H. right; exact Hk'.
Qed.

Lemma dataframe_corr_numbers (df : DataFrame) (dep : var) :
  (forall v, has_column df v = true -> df_text df v = None) ->
  dataframe_corr (drop df dep) = Ok (frame_corr (drop df dep)).
Proof.
  intros H. unfold dataframe_corr. rewrite first_text_None; [reflexivity|].
  intros k Hk. simpl in Hk. apply filter_In in Hk. destruct Hk as [Hk _].
  simpl. apply H. unfold has_column. apply existsb_exists.
  exists k. split; [exact Hk|apply String.eqb_refl].
Qed.

(** A run with [min >= 1] over a readable table whose dependent and
    candidate columns hold numbers: every correlation with the dependent
    variable is computed before the sizes are looked at. *)
Lemma main_correlates (read_csv : string -> string -> string -> result DataFrame)
    (fname : string) (dep : var) (vars : list var) (delimeter decimal : string)
    (min max : Z) (df : DataFrame) :
  (1 <= min)%Z ->
  read_csv fname delimeter decimal = Ok df ->
  has_column df dep = true ->
  df_text df dep = None ->
  (forall v, In v (pool_of df dep vars) ->
             has_column df v = true /\ df_text df v = None) ->
  exists yx,
    (forall v, In v (pool_of df dep vars) ->
               dict_get v yx = Some (pairwise_corr df dep v)) /\
    main read_csv fname dep vars delimeter decimal min max
    = match parallel (combination (pool_of df dep vars))
              (size_range min max (List.length (pool_of df dep vars))) with
      | Raise e =>
          (EvReadCsv fname :: map (EvSeriesCorr dep) (pool_of df dep vars), Raise e)
      | Ok combinations =>
          (EvReadCsv fname
             :: map (EvSeriesCorr dep) (pool_of df dep vars) ++ [EvFrameCorr],
           correlation_matrix <- dataframe_corr (drop df dep) ;;
           hellwig correlation_matrix (fun v => dict_get v yx) combinations)
      end.
Proof.
  intros Hmin Hread Hdep Hdepnum Hcols.
  destruct (yx_corrs_loop_ok df dep (pool_of df dep vars) Hdepnum Hcols [])
    as (yx & Hloop & Hin & _).
  exists yx. split; [exact Hin|].
  unfold main.
  destruct (min <? 1)%Z eqn:E; [apply Z.ltb_lt in E; lia|].
  rewrite Hread, Hdep. simpl negb. cbv iota.
  fold (pool_of df dep vars). cbv zeta. rewrite Hloop. reflexivity.
Qed.

(** The same over a table of numbers and sizes the generator can take:
    all the correlations are computed, then the search runs. *)
Lemma main_runs (read_csv : string -> string -> string -> result DataFrame)
    (fname : string) (dep : var) (vars : list var) (delimeter decimal : string)
    (min max : Z) (df : DataFrame) :
  (1 <= min)%Z ->
  read_csv fname delimeter decimal = Ok df ->
  has_column df dep = true ->
  (forall v, In v (pool_of df dep vars) -> has_column df v = true) ->
  (forall v, has_column df v = true -> df_text df v = None) ->
  (forall k, In k (size_range min max (List.length (pool_of df dep vars))) ->
             (k <= PY_SSIZE_T_MAX)%Z \/
             (k <= Z.of_nat (List.length (pool_of df dep vars)))%Z) ->
  exists yx,
    (forall v, In v (pool_of df dep vars) ->
               dict_get v yx = Some (pairwise_corr df dep v)) /\
    main read_csv fname dep vars delimeter decimal min max
    = (EvReadCsv fname :: map (EvSeriesCorr dep) (pool_of df dep vars) ++ [EvFrameCorr],
       hellwig (frame_corr (drop df dep)) (fun v => dict_get v yx)
         (enumerations (pool_of df dep vars) min max)).
Proof.
  intros Hmin Hread Hdep Hcols Hnum Hfit.
  destruct (main_correlates read_csv fname dep vars delimeter decimal min max df
              Hmin Hread Hdep (Hnum dep Hdep)
              (fun v Hv => conj (Hcols v Hv) (Hnum v (Hcols v Hv))))
    as (yx & Hyx & Hmain).
  exists yx. split; [exact Hyx|]. rewrite Hmain.
  rewrite parallel_combination.
  - rewrite (dataframe_corr_numbers df dep Hnum). reflexivity.
  - intros k Hk. split; [|apply Hfit; exact Hk].
    apply size_range_lower in Hk. lia.
Qed.

(** C5.  With [min < 1] the run stops with an error before the file is
    read: nothing has happened when the error is raised. *)
Theorem main_rejects_small_min
    (read_csv : string -> string -> string -> result DataFrame)
    (fname : string) (dep : var) (vars : list var) (delimeter decimal : string)
    (min max : Z) :
  (min < 1)%Z ->
  main read_csv fname dep vars delimeter decimal min max
  = ([], Raise (ValueError "min cannot be smaller than 1")).
Proof.
  intros Hmin. unfold main.
  destruct (min <? 1)%Z eqn:E; [reflexivity|]. apply Z.ltb_ge in E. lia.
Qed.

(** C4, as the code has it.  The only size configuration rejected before
    anything is read or computed is [min < 1].  With [min >= 1], on a table
    that has the columns asked for, holding numbers, the table is read and
    every correlation with the dependent variable is computed whatever
    [max] is; an explicit [max] below [min] only shows after the matrix has
    been computed too, when [max()] is given an empty sequence. *)
Theorem only_min_is_validated
    (read_csv : string -> string -> string -> result DataFrame)
    (fname : string) (dep : var) (vars : list var) (delimeter decimal : string)
    (min max : Z) :
  ((min < 1)%Z ->
   main read_csv fname dep vars delimeter decimal min max
   = ([], Raise (ValueError "min cannot be smaller than 1"))) /\
  (forall df,
      (1 <= min)%Z ->
      read_csv fname delimeter decimal = Ok df ->
      has_column df dep = true ->
      df_text df dep = None ->
      (forall v, In v (pool_of df dep vars) ->
                 has_column df v = true /\ df_text df v = None) ->
      (exists rest outcome,
          main read_csv fname dep vars delimeter decimal min max
          = (EvReadCsv fname :: map (EvSeriesCorr dep) (pool_of df dep vars) ++ rest,
             outcome))
      /\
      ((1 <= max < min)%Z ->
       (forall v, has_column df v = true -> df_text df v = None) ->
       main read_csv fname dep vars delimeter decimal min max
       = (EvReadCsv fname :: map (EvSeriesCorr dep) (pool_of df dep vars) ++ [EvFrameCorr],
          Raise (ValueError "max() arg is an empty sequence")))).
Proof.
  split.
  - intros Hmin. unfold main.
    destruct (min <? 1)%Z eqn:E; [reflexivity|]. apply Z.ltb_ge in E. lia.
  - intros df Hmin Hread Hdep Hdepnum Hcols. split.
    + destruct (main_correlates read_csv fname dep vars delimeter decimal min max df
                  Hmin Hread Hdep Hdepnum Hcols) as (yx & _ & Hmain).
      rewrite Hmain.
      destruct (parallel (combination (pool_of df dep vars)) _) as [combos|e].
      * eexists [EvFrameCorr], _. reflexivity.
      * eexists [], _. rewrite app_nil_r. reflexivity.
    + intros Hmax Hnum.
      assert (Hnil : size_range min max (List.length (pool_of df dep vars)) = []).
      { unfold size_range.
        destruct (max <? 1)%Z eqn:E; [apply Z.ltb_lt in E; lia|].
        unfold range. replace (Z.to_nat (max - min)) with 0%nat by lia. reflexivity. }
      destruct (main_runs read_csv fname dep vars delimeter decimal min max df
                  Hmin Hread Hdep (fun v Hv => proj1 (Hcols v Hv)) Hnum)
        as (yx & _ & Hmain).
      { rewrite Hnil. intros k []. }
      rewrite Hmain. unfold enumerations. rewrite Hnil. reflexivity.
Qed.


(** ** The scenario, evaluated *)

Section Scenario.

Local Open Scope string_scope.

(** C1 at [min = 1], [max = 2] over the pool [A], [B]: the only size
    evaluated is 1, the pair [A], [B] is never scored, and the run prints
    [A] with 0.64; without [-max] size 2 is evaluated and the pair wins. *)
Theorem explicit_max_is_not_evaluated :
  size_range 1 2 2 = [1%Z] /\
  enumerations ["A"; "B"] 1 2 = [[["A"]; ["B"]]] /\
  main (scenario_fs 10) "data.csv" "Y" [] ";" "," 1 2
  = ([EvReadCsv "data.csv"; EvSeriesCorr "Y" "A"; EvSeriesCorr "Y" "B"; EvFrameCorr],
     Ok (["A"], Fin (64 # 100))) /\
  main (scenario_fs 10) "data.csv" "Y" [] ";" "," 1 (-1)
  = ([EvReadCsv "data.csv"; EvSeriesCorr "Y" "A"; EvSeriesCorr "Y" "B"; EvFrameCorr],
     Ok (["A"; "B"], Fin (1500000 # 2250000))).
Proof.
  repeat split; vm_compute; reflexivity.
Qed.

(** C3.  [A] alone has a zero reference denominator; it is not excluded in
    favour of [B], it is returned with an infinite capacity. *)
Lemma zero_denominator_counterexample :
  denominator_loop degenerate_matrix ["A"] = Ok (Fin 0) /\
  hellwig_singular degenerate_matrix degenerate_vector ["B"]
  = Ok (["B"], Fin (36 # 100)) /\
  hellwig degenerate_matrix degenerate_vector [[["A"]; ["B"]]]
  = Ok (["A"], PInf).
Proof.
  repeat split; vm_compute; reflexivity.
Qed.

(** C4.  [min = 2] with [max = 1], and [max = 4] over a pool of two: in both
    runs the table is read and all correlations are computed before the
    error, which comes from [max()]. *)
Lemma size_configuration_counterexample :
  main (scenario_fs 10) "data.csv" "Y" [] ";" "," 2 1
  = ([EvReadCsv "data.csv"; EvSeriesCorr "Y" "A"; EvSeriesCorr "Y" "B"; EvFrameCorr],
     Raise (ValueError "max() arg is an empty sequence")) /\
  main (scenario_fs 10) "data.csv" "Y" [] ";" "," 1 4
  = ([EvReadCsv "data.csv"; EvSeriesCorr "Y" "A"; EvSeriesCorr "Y" "B"; EvFrameCorr],
     Raise (ValueError "max() arg is an empty sequence")).
Proof.
  split; vm_compute; reflexivity.
Qed.


(** C8.  With a constant column [A] the first combination evaluated
    scores [nan] and is the one printed, although [B] alone scores 0.36:
    no comparison with [nan] is true, so nothing replaces it. *)
Lemma nan_first_counterexample :
  main constant_column_fs "data.csv" "Y" [] ";" "," 1 (-1)
  = ([EvReadCsv "data.csv"; EvSeriesCorr "Y" "A"; EvSeriesCorr "Y" "B"; EvFrameCorr],
     Ok (["A"], NaN)) /\
  hellwig_singular (frame_corr (drop constant_column "Y"))
    (fun v => Some (pairwise_corr constant_column "Y" v)) ["B"]
  = Ok (["B"], Fin (36 # 100)) /\
  Np.gt (Fin (36 # 100)) NaN = false.
Proof.
  repeat split; vm_compute; reflexivity.
Qed.

(** C10.  [A] and [B] have the self-correlation 1 but share a single row:
    their correlation is [nan], and so are the denominator and the
    capacity of the pair. *)
Lemma nan_entry_counterexample :
  frame_corr (drop sparse_columns "Y") "A" "A" = Some (Fin 1) /\
  frame_corr (drop sparse_columns "Y") "B" "B" = Some (Fin 1) /\
  denominator_loop (frame_corr (drop sparse_columns "Y")) ["A"; "B"] = Ok NaN /\
  hellwig_singular (frame_corr (drop sparse_columns "Y"))
    (fun v => Some (pairwise_corr sparse_columns "Y" v)) ["A"; "B"]
  = Ok (["A"; "B"], NaN).
Proof.
  repeat split; vm_compute; reflexivity.
Qed.

(** *** The theorems above, at the scenario *)

Lemma hellwig_singular_formula_witness :
  exists D h,
    denominator_loop scenario_matrix ["A"; "B"] = Ok D /\
    num_eq D (reference_denominator (pairwise_corr (scenario 10)) ["A"; "B"]) /\
    hellwig_singular scenario_matrix scenario_vector ["A"; "B"] = Ok (["A"; "B"], h) /\
    num_eq h (total_capacity (pairwise_corr (scenario 10))
                (pairwise_corr (scenario 10) "Y") ["A"; "B"]).
Proof.
  apply (hellwig_singular_formula scenario_matrix scenario_vector
           (pairwise_corr (scenario 10)) (pairwise_corr (scenario 10) "Y") ["A"; "B"]).
  - intros a b [<-|[<-|[]]] [<-|[<-|[]]]; reflexivity.
  - intros v [<-|[<-|[]]]; reflexivity.
Defined.

Lemma hellwig_singular_single_witness :
  exists h, hellwig_singular scenario_matrix scenario_vector ["A"] = Ok (["A"], h) /\
            num_eq h (Np.square (Fin (8 # 10))).
Proof.
  apply (hellwig_singular_single scenario_matrix scenario_vector "A" (Fin 1) (Fin (8 # 10))).
  - reflexivity.
  - simpl. reflexivity.
  - reflexivity.
Defined.

Lemma hellwig_singular_bounds_witness :
  exists D h,
    denominator_loop scenario_matrix ["A"; "B"] = Ok (Fin D) /\
    1 <= D /\
    hellwig_singular scenario_matrix scenario_vector ["A"; "B"]
    = Ok (["A"; "B"], Fin h) /\
    0 <= h /\
    h <= Qsum (map (fun v => (if String.eqb v "A" then 8 # 10 else 6 # 10)
                             * (if String.eqb v "A" then 8 # 10 else 6 # 10))
                   ["A"; "B"]).
Proof.
  apply (hellwig_singular_bounds scenario_matrix scenario_vector
           (fun v => if String.eqb v "A" then 1 else 5 # 10)
           (fun v => if String.eqb v "A" then 8 # 10 else 6 # 10) "A" ["B"]).
  - intros v [<-|[<-|[]]]; split; try reflexivity; vm_compute; discriminate.
  - simpl. reflexivity.
  - intros v [<-|[<-|[]]]; split; try reflexivity; vm_compute; discriminate.
Defined.

Lemma hellwig_selects_first_maximum_witness :
  exists before best after,
    List.concat (enumerations ["A"; "B"] 1 (-1)) = (before ++ best :: after)%list /\
    hellwig scenario_matrix scenario_vector (enumerations ["A"; "B"] 1 (-1))
    = Ok (best, scenario_score best) /\
    (forall c, In c (List.concat (enumerations ["A"; "B"] 1 (-1))) ->
               num_le (scenario_score c) (scenario_score best)) /\
    (forall c, In c before -> num_lt (scenario_score c) (scenario_score best)).
Proof.
  apply (hellwig_selects_first_maximum scenario_matrix scenario_vector scenario_score
           (enumerations ["A"; "B"] 1 (-1))).
  - vm_compute. discriminate.
  - vm_compute. intros L [<-|[<-|[]]]; discriminate.
  - vm_compute. intros L c [<-|[<-|[]]].
    + intros [<-|[<-|[]]]; split; [reflexivity|discriminate|reflexivity|discriminate].
    + intros [<-|[]]; split; [reflexivity|discriminate].
Defined.

Lemma zero_denominator_not_excluded_witness :
  exists h,
    hellwig_singular degenerate_matrix degenerate_vector ["A"] = Ok (["A"], h) /\
    (h = PInf \/ h = NaN) /\
    exists best,
      In best (List.concat [[["A"]; ["B"]]]) /\
      hellwig degenerate_matrix degenerate_vector [[["A"]; ["B"]]] = Ok (best, PInf).
Proof.
  destruct (zero_denominator_not_excluded degenerate_matrix degenerate_vector
              (fun v => if String.eqb v "A" then Fin (8 # 10) else Fin (6 # 10))
              ["A"] (Fin 0))
    as (h & Hscore & Hinf & Hsearch).
  - discriminate.
  - reflexivity.
  - simpl. reflexivity.
  - intros v [<-|[]]. reflexivity.
  - exists h. split; [exact Hscore|]. split; [exact Hinf|].
    apply (Hsearch degenerate_score [[["A"]; ["B"]]] [["A"]; ["B"]]).
    + left. reflexivity.
    + left. reflexivity.
    + intros L [<-|[]]. discriminate.
    + intros L c [<-|[]] [<-|[<-|[]]]; split;
        [reflexivity|discriminate|reflexivity|discriminate].
Defined.

Lemma combination_enumerates_witness :
  exists out,
    combination ["A"; "B"] 1 = Ok out /\
    List.length out = binomial 2 1 /\
    (List.length out * (fact 1 * fact (2 - 1)) = fact 2)%nat /\
    (forall c, In c out -> List.length c = 1%nat /\ NoDup c /\ subsequence c ["A"; "B"]) /\
    (forall c, List.length c = 1%nat -> subsequence c ["A"; "B"] -> In c out) /\
    NoDup out /\
    (forall c1 c2, In c1 out -> In c2 out ->
                   (forall x, In x c1 <-> In x c2) -> c1 = c2).
Proof.
  apply (combination_enumerates ["A"; "B"] 1).
  - constructor.
    + simpl. intros [H|[]]. discriminate.
    + constructor; [intros []|constructor].
  - simpl. lia.
Defined.

Lemma main_rejects_small_min_witness :
  main (scenario_fs 10) "data.csv" "Y" [] ";" "," 0 (-1)
  = ([], Raise (ValueError "min cannot be smaller than 1")).
Proof.
  apply (main_rejects_small_min (scenario_fs 10) "data.csv" "Y" [] ";" "," 0 (-1)).
  lia.
Defined.

Lemma only_min_is_validated_witness :
  (exists rest outcome,
      main (scenario_fs 10) "data.csv" "Y" [] ";" "," 2 1
      = ((EvReadCsv "data.csv"
            :: map (EvSeriesCorr "Y") (pool_of (scenario 10) "Y" []) ++ rest)%list,
         outcome)) /\
  main (scenario_fs 10) "data.csv" "Y" [] ";" "," 2 1
  = ((EvReadCsv "data.csv"
        :: map (EvSeriesCorr "Y") (pool_of (scenario 10) "Y" []) ++ [EvFrameCorr])%list,
     Raise (ValueError "max() arg is an empty sequence")).
Proof.
  destruct (only_min_is_validated (scenario_fs 10) "data.csv" "Y" [] ";" "," 2 1)
    as [_ H].
  destruct (H (scenario 10)) as [Htrace Herr].
  - lia.
  - reflexivity.
  - reflexivity.
  - reflexivity.
  - intros v [<-|[<-|[]]]; split; reflexivity.
  - split; [exact Htrace|]. apply Herr; [lia|]. intros v _. reflexivity.
Defined.


End Scenario.

(** * More of the script *)

(** ** Loops that raise *)

Lemma for_each_raise {S X : Type} (body : S -> X -> result S) (xs : list X) :
  forall s e, for_each body s xs = Raise e ->
              exists s' x, In x xs /\ body s' x = Raise e.
Proof.
  induction xs as [|x xs IH]; intros s e H; simpl in H.
  - discriminate.
  - destruct (body s x) as [s1|e1] eqn:E; simpl in H.
    + destruct (IH s1 e H) as (s' & y & Hy & Hb).
      exists s', y. split; [right; exact Hy|exact Hb].
    + inversion H; subst. exists s, x. split; [left; reflexivity|exact E].
Qed.

Lemma for_each_inv {S X : Type} (body : S -> X -> result S) (xs : list X) :
  forall s r, for_each body s xs = Ok r ->
              forall x, In x xs -> exists s1 s2, body s1 x = Ok s2.
Proof.
  induction xs as [|x xs IH]; intros s r H y Hy; simpl in H.
  - contradiction.
  - destruct (body s x) as [s1|e1] eqn:E; simpl in H; [|discriminate].
    destruct Hy as [<-|Hy].
    + exists s, s1. exact E.
    + apply (IH s1 r H y Hy).
Qed.

Lemma for_each_total {S X : Type} (body : S -> X -> result S) (xs : list X) :
  (forall s x, In x xs -> exists s', body s x = Ok s') ->
  forall s, exists r, for_each body s xs = Ok r.
Proof.
  induction xs as [|x xs IH]; intros Hb s; simpl.
  - exists s. reflexivity.
  - destruct (Hb s x (or_introl eq_refl)) as (s' & Hs'). rewrite Hs'. simpl.
    apply IH. intros s0 y Hy. apply Hb. right; exact Hy.
Qed.

Lemma parallel_raise {X Y : Type} (f : X -> result Y) (xs : list X) (e : exn) :
  parallel f xs = Raise e -> exists x, In x xs /\ f x = Raise e.
Proof.
  induction xs as [|x xs IH]; simpl; intros H.
  - discriminate.
  - destruct (f x) as [y|e1] eqn:E; simpl in H.
    + destruct (parallel f xs) as [ys|e2]; simpl in H; [discriminate|].
      inversion H; subst. destruct (IH eq_refl) as (z & Hz & Hf).
      exists z. split; [right; exact Hz|exact Hf].
    + inversion H; subst. exists x. split; [left; reflexivity|exact E].
Qed.

Lemma parallel_inv {X Y : Type} (f : X -> result Y) (xs : list X) (ys : list Y) :
  parallel f xs = Ok ys -> forall x, In x xs -> exists y, f x = Ok y.
Proof.
  revert ys. induction xs as [|x xs IH]; simpl; intros ys H z Hz.
  - contradiction.
  - destruct (f x) as [y|e1] eqn:E; simpl in H; [|discriminate].
    destruct (parallel f xs) as [ys'|e2]; simpl in H; [|discriminate].
    destruct Hz as [<-|Hz].
    + exists y. exact E.
    + apply (IH ys' eq_refl z Hz).
Qed.

(** ** What the scorer raises *)

Lemma nth_error_first_of_member (C : list var) (v : var) :
  In v C -> nth_error C 0 = Some (hd ""%string C).
Proof.
  destruct C as [|ref rest]; [contradiction|reflexivity].
Qed.

Lemma denominator_loop_raise (cm : var -> var -> option num) (C : list var) (e : exn) :
  denominator_loop cm C = Raise e -> e = KeyError.
Proof.
  unfold denominator_loop. intros H.
  apply for_each_raise in H. destruct H as (s & v & Hv & Hb).
  rewrite (nth_error_first_of_member C v Hv) in Hb. simpl in Hb.
  destruct (cm (hd ""%string C) v); simpl in Hb; [discriminate|].
  inversion Hb; reflexivity.
Qed.

Lemma capacity_loop_raise (dv : var -> option num) (D : num) (C : list var) (e : exn) :
  capacity_loop dv D C = Raise e -> e = KeyError.
Proof.
  unfold capacity_loop. intros H.
  apply for_each_raise in H. destruct H as (s & v & Hv & Hb).
  destruct (dv v); simpl in Hb; [discriminate|].
  inversion Hb; reflexivity.
Qed.

Lemma hellwig_singular_raise (cm : var -> var -> option num) (dv : var -> option num)
    (C : list var) (e : exn) :
  hellwig_singular cm dv C = Raise e -> e = KeyError.
Proof.
  unfold hellwig_singular.
  destruct (denominator_loop cm C) as [D|e1] eqn:E1; simpl.
  - destruct (capacity_loop dv D C) as [h|e2] eqn:E2; simpl; [discriminate|].
    intros H; inversion H; subst. apply (capacity_loop_raise dv D C e E2).
  - intros H; inversion H; subst. apply (denominator_loop_raise cm C e E1).
Qed.

Lemma hellwig_singular_defined (cm : var -> var -> option num) (dv : var -> option num)
    (C : list var) :
  (exists r, hellwig_singular cm dv C = Ok r) <->
  (forall v, In v C ->
             (exists x, cm (hd ""%string C) v = Some x) /\ (exists y, dv v = Some y)).
Proof.
  split.
  - intros (r & H) v Hv. unfold hellwig_singular in H.
    destruct (denominator_loop cm C) as [D|e1] eqn:E1; simpl in H; [|discriminate].
    destruct (capacity_loop dv D C) as [h|e2] eqn:E2; simpl in H; [|discriminate].
    split.
    + destruct (for_each_inv _ _ _ _ E1 v Hv) as (s1 & s2 & Hb).
      rewrite (nth_error_first_of_member C v Hv) in Hb. simpl in Hb.
      destruct (cm (hd ""%string C) v) as [x|]; [exists x; reflexivity|discriminate].
    + destruct (for_each_inv _ _ _ _ E2 v Hv) as (s1 & s2 & Hb).
      destruct (dv v) as [y|]; [exists y; reflexivity|discriminate].
  - intros H. unfold hellwig_singular.
    destruct (for_each_total
                (fun denominator v =>
                   ref <- match nth_error C 0 with
                          | Some ref => Ok ref
                          | None => Raise IndexError
                          end ;;
                   c <- getitem (cm ref v) ;;
                   Ok (Np.add denominator (Np.abs c))) C) with (s := Np.zero)
      as (D & HD).
    { intros s v Hv. rewrite (nth_error_first_of_member C v Hv). simpl.
      destruct (H v Hv) as [(x & Hx) _]. rewrite Hx. simpl. eexists; reflexivity. }
    fold (denominator_loop cm C) in HD. rewrite HD. simpl.
    destruct (for_each_total
                (fun h v =>
                   d <- getitem (dv v) ;;
                   Ok (Np.add h (Np.div (Np.square d) D))) C) with (s := Np.zero)
      as (h & Hh).
    { intros s v Hv. destruct (H v Hv) as [_ (y & Hy)]. rewrite Hy. simpl.
      eexists; reflexivity. }
    fold (capacity_loop dv D C) in Hh. rewrite Hh. simpl.
    eexists; reflexivity.
Qed.

(** X1.  The scorer hands back the combination it was given, raises nothing
    but [KeyError], and succeeds exactly when the matrix holds the entry of
    the first variable with every member and the vector holds every
    member. *)
Theorem hellwig_singular_outcome (cm : var -> var -> option num)
    (dv : var -> option num) (C : list var) :
  (forall r, hellwig_singular cm dv C = Ok r -> fst r = C) /\
  (forall e, hellwig_singular cm dv C = Raise e -> e = KeyError) /\
  ((exists r, hellwig_singular cm dv C = Ok r) <->
   (forall v, In v C ->
              (exists x, cm (hd ""%string C) v = Some x) /\ (exists y, dv v = Some y))).
Proof.
  split; [|split].
  - intros r. apply hellwig_singular_fst.
  - intros e. apply hellwig_singular_raise.
  - apply hellwig_singular_defined.
Qed.

(** ** What the search returns and raises *)

Lemma score_of_ok (cm : var -> var -> option num) (dv : var -> option num)
    (c : list var) (r : list var * num) :
  hellwig_singular cm dv c = Ok r ->
  hellwig_singular cm dv c = Ok (c, score_of cm dv c).
Proof.
  intros H. unfold score_of. rewrite H.
  pose proof (hellwig_singular_fst cm dv c r H) as Hfst.
  destruct r as [c' h]. simpl in Hfst. subst c'. reflexivity.
Qed.

Lemma hellwig_loop_inv (cm : var -> var -> option num) (dv : var -> option num)
    (vcs : list (list (list var))) (acc r : list (list var * num)) :
  for_each (fun best_info combination =>
              h <- parallel (hellwig_singular cm dv) combination ;;
              h <- py_max snd h ;;
              Ok (best_info ++ [h]))
           acc vcs = Ok r ->
  forall L, In L vcs ->
            L <> [] /\ forall c, In c L -> exists r', hellwig_singular cm dv c = Ok r'.
Proof.
  intros H L HL.
  destruct (for_each_inv _ _ _ _ H L HL) as (s1 & s2 & Hb).
  destruct (parallel (hellwig_singular cm dv) L) as [ys|e] eqn:E; simpl in Hb;
    [|discriminate].
  split.
  - intros ->. simpl in E. inversion E; subst. simpl in Hb. discriminate.
  - apply (parallel_inv _ _ _ E).
Qed.

Lemma hellwig_defined (cm : var -> var -> option num) (dv : var -> option num)
    (vcs : list (list (list var))) :
  (exists r, hellwig cm dv vcs = Ok r) <->
  (vcs <> [] /\
   forall L, In L vcs ->
             L <> [] /\ forall c, In c L -> exists r, hellwig_singular cm dv c = Ok r).
Proof.
  split.
  - intros (r & H). unfold hellwig in H.
    destruct (for_each _ [] vcs) as [bests|e] eqn:E; simpl in H; [|discriminate].
    split.
    + intros ->. simpl in E. inversion E; subst. simpl in H. discriminate.
    + apply (hellwig_loop_inv cm dv vcs [] bests E).
  - intros (Hvcs & Hall). destruct vcs as [|L0 Ls]; [congruence|].
    eexists. apply (hellwig_two_level cm dv (score_of cm dv) L0 Ls).
    + intros L HL. apply (Hall L HL).
    + intros L c HL Hc. destruct (Hall L HL) as [_ Hs].
      destruct (Hs c Hc) as (r & Hr). apply (score_of_ok cm dv c r Hr).
Qed.

Lemma hellwig_raise (cm : var -> var -> option num) (dv : var -> option num)
    (vcs : list (list (list var))) (e : exn) :
  hellwig cm dv vcs = Raise e ->
  e = KeyError \/ e = ValueError "max() arg is an empty sequence".
Proof.
  unfold hellwig. intros H.
  destruct (for_each _ [] vcs) as [bests|e1] eqn:E; simpl in H.
  - destruct bests; simpl in H; [|discriminate]. inversion H; subst. right; reflexivity.
  - inversion H; subst. apply for_each_raise in E.
    destruct E as (s & L & HL & Hb).
    destruct (parallel (hellwig_singular cm dv) L) as [ys|e2] eqn:E2; simpl in Hb.
    + destruct ys; simpl in Hb; [|discriminate]. inversion Hb; subst. right; reflexivity.
    + inversion Hb; subst. apply parallel_raise in E2. destruct E2 as (c & _ & Hc).
      left. apply (hellwig_singular_raise cm dv c e Hc).
Qed.

(** X2.  The search returns a result exactly when it is given at least one
    enumeration, none of them empty, and every combination can be scored;
    otherwise it raises [KeyError] or the [ValueError] of [max()] on an
    empty sequence, and nothing else. *)
Theorem hellwig_outcome (cm : var -> var -> option num) (dv : var -> option num)
    (vcs : list (list (list var))) :
  ((exists r, hellwig cm dv vcs = Ok r) <->
   (vcs <> [] /\
    forall L, In L vcs ->
              L <> [] /\ forall c, In c L -> exists r, hellwig_singular cm dv c = Ok r))
  /\
  (forall e, hellwig cm dv vcs = Raise e ->
             e = KeyError \/ e = ValueError "max() arg is an empty sequence").
Proof.
  split; [apply hellwig_defined|intros e; apply hellwig_raise].
Qed.

Lemma hellwig_result (cm : var -> var -> option num) (dv : var -> option num)
    (vcs : list (list (list var))) (r : list var * num) :
  hellwig cm dv vcs = Ok r ->
  exists L0 Ls,
    vcs = L0 :: Ls /\
    r = (max_from (score_of cm dv) (size_best (score_of cm dv) L0)
           (map (size_best (score_of cm dv)) Ls),
         score_of cm dv
           (max_from (score_of cm dv) (size_best (score_of cm dv) L0)
              (map (size_best (score_of cm dv)) Ls))) /\
    (forall L, In L vcs -> L <> []) /\
    (forall L c, In L vcs -> In c L ->
                 hellwig_singular cm dv c = Ok (c, score_of cm dv c)).
Proof.
  intros H.
  destruct (proj1 (hellwig_defined cm dv vcs) (ex_intro _ r H)) as (Hvcs & Hall).
  destruct vcs as [|L0 Ls]; [congruence|].
  assert (Hne : forall L, In L (L0 :: Ls) -> L <> []) by (intros L HL; apply (Hall L HL)).
  assert (Hs : forall L c, In L (L0 :: Ls) -> In c L ->
                           hellwig_singular cm dv c = Ok (c, score_of cm dv c)).
  { intros L c HL Hc. destruct (Hall L HL) as [_ Hsc].
    destruct (Hsc c Hc) as (r' & Hr'). apply (score_of_ok cm dv c r' Hr'). }
  exists L0, Ls. split; [reflexivity|]. split; [|split; assumption].
  pose proof (hellwig_two_level cm dv (score_of cm dv) L0 Ls Hne Hs) as H2.
  cbv zeta in H2. rewrite H2 in H. inversion H; reflexivity.
Qed.

Lemma hellwig_result_evaluated (cm : var -> var -> option num)
    (dv : var -> option num) (vcs : list (list (list var)))
    (c : list var) (h : num) :
  hellwig cm dv vcs = Ok (c, h) ->
  In c (List.concat vcs) /\ hellwig_singular cm dv c = Ok (c, h).
Proof.
  intros H.
  destruct (hellwig_result cm dv vcs (c, h) H) as (L0 & Ls & -> & Hr & Hne & Hs).
  injection Hr as Hc Hh. subst c h.
  set (best := max_from (score_of cm dv) (size_best (score_of cm dv) L0)
                 (map (size_best (score_of cm dv)) Ls)) in *.
  assert (Hin : exists L, In L (L0 :: Ls) /\ In best L).
  { pose proof (max_from_In (score_of cm dv) (map (size_best (score_of cm dv)) Ls)
                  (size_best (score_of cm dv) L0)) as Hm.
    fold best in Hm.
    change (In best (map (size_best (score_of cm dv)) (L0 :: Ls))) in Hm.
    apply in_map_iff in Hm. destruct Hm as (L & HbL & HL).
    exists L. split; [exact HL|]. rewrite <- HbL. apply size_best_In. apply Hne; exact HL. }
  destruct Hin as (L & HL & HbL).
  split.
  - apply in_concat. exists L. split; assumption.
  - apply (Hs L best HL HbL).
Qed.

(** X3.  Whatever the capacities are, a result of the search is one of the
    combinations it was given, paired with the capacity the scorer gives
    it. *)
Theorem hellwig_returns_evaluated (cm : var -> var -> option num)
    (dv : var -> option num) (vcs : list (list (list var)))
    (c : list var) (h : num) :
  hellwig cm dv vcs = Ok (c, h) ->
  In c (List.concat vcs) /\ hellwig_singular cm dv c = Ok (c, h).
Proof.
  apply hellwig_result_evaluated.
Qed.

Lemma max_from_nan_first {A : Type} (key : A -> num) (l : list A) (b : A) :
  key b = NaN -> max_from key b l = b.
Proof.
  intros Hb. induction l as [|x l IH]; simpl; [reflexivity|].
  rewrite Hb. replace (Np.gt (key x) NaN) with false by (destruct (key x); reflexivity).
  exact IH.
Qed.

Lemma max_from_not_nan {A : Type} (key : A -> num) (l : list A) :
  forall b, key b <> NaN -> key (max_from key b l) <> NaN.
Proof.
  induction l as [|x l IH]; intros b Hb; simpl; [exact Hb|].
  apply IH. destruct (Np.gt (key x) (key b)) eqn:E; [|exact Hb].
  intros Hx. rewrite Hx in E. simpl in E. discriminate.
Qed.

(** X4.  A [nan] capacity wins in one case only: when it belongs to the
    very first combination evaluated, which is then returned whatever the
    others score. *)
Theorem hellwig_nan_first (cm : var -> var -> option num) (dv : var -> option num)
    (c0 : list var) (l : list (list var)) (Ls : list (list (list var)))
    (best : list var) (h : num) :
  hellwig cm dv ((c0 :: l) :: Ls) = Ok (best, h) ->
  (hellwig_singular cm dv c0 = Ok (c0, NaN) -> best = c0 /\ h = NaN) /\
  (h = NaN -> hellwig_singular cm dv c0 = Ok (c0, NaN)).
Proof.
  intros H.
  destruct (hellwig_result cm dv _ (best, h) H) as (L0 & Ls' & Heq & Hr & Hne & Hs).
  injection Heq as HL0 HLs. subst L0 Ls'.
  injection Hr as Hb Hh. subst best h.
  assert (Hc0 : hellwig_singular cm dv c0 = Ok (c0, score_of cm dv c0)).
  { apply (Hs (c0 :: l)); left; reflexivity. }
  split.
  - intros Hnan. rewrite Hnan in Hc0. inversion Hc0 as [Hsc].
    assert (Hsize : max_from (score_of cm dv) c0 l = c0).
    { apply max_from_nan_first. symmetry; exact Hsc. }
    rewrite Hsize, max_from_nan_first by (symmetry; exact Hsc).
    split; [reflexivity|symmetry; exact Hsc].
  - intros Hnan. rewrite Hc0. f_equal. f_equal.
    destruct (score_of cm dv c0) eqn:E; try reflexivity; exfalso.
    all: assert (Hn : score_of cm dv c0 <> NaN) by (rewrite E; discriminate).
    all: pose proof (max_from_not_nan (score_of cm dv) l c0 Hn) as Hn1.
    all: pose proof (max_from_not_nan (score_of cm dv)
                       (map (size_best (score_of cm dv)) Ls)
                       (size_best (score_of cm dv) (c0 :: l)) Hn1) as Hn2.
    all: apply Hn2; exact Hnan.
Qed.

(** ** Sizes and enumerations *)





Lemma range_nil (lo hi : Z) : (hi <= lo)%Z -> range lo hi = [].
Proof.
  intros H. unfold range. replace (Z.to_nat (hi - lo)) with 0%nat by lia. reflexivity.
Qed.

Lemma range_cons (lo hi : Z) : (lo < hi)%Z -> range lo hi = lo :: range (lo + 1) hi.
Proof.
  intros H. unfold range.
  replace (Z.to_nat (hi - lo)) with (S (Z.to_nat (hi - (lo + 1)))) by lia.
  simpl seq. simpl map. f_equal; [lia|].
  rewrite <- seq_shift, map_map. apply map_ext. intros i. lia.
Qed.

Lemma range_sorted (lo hi : Z) : StronglySorted Z.lt (range lo hi).
Proof.
  remember (Z.to_nat (hi - lo)) as n eqn:Hn. revert lo Hn.
  induction n as [|n IH]; intros lo Hn.
  - rewrite range_nil by lia. constructor.
  - rewrite range_cons by lia. constructor.
    + apply IH. lia.
    + apply Forall_forall. intros k Hk. apply range_In in Hk. lia.
Qed.

(** X6.  The sizes of a run come in ascending order; without [-max] (any
    [max < 1]) they are the integers from [min] to the size of the pool,
    both included. *)
Theorem size_range_default (min max : Z) (len : nat) :
  StronglySorted Z.lt (size_range min max len) /\
  ((max < 1)%Z ->
   forall k, In k (size_range min max len) <-> (min <= k <= Z.of_nat len)%Z).
Proof.
  split.
  - unfold size_range. apply range_sorted.
  - intros Hmax k. apply size_range_default_max. exact Hmax.
Qed.

Lemma subsequence_length {A : Type} (c l : list A) :
  subsequence c l -> (List.length c <= List.length l)%nat.
Proof.
  induction 1; simpl; lia.
Qed.

Lemma enumerations_In (pool : list var) (min max : Z) (c : list var) :
  (1 <= min)%Z ->
  In c (List.concat (enumerations pool min max)) <->
  (In (Z.of_nat (List.length c)) (size_range min max (List.length pool)) /\
   subsequence c pool).
Proof.
  intros Hmin. unfold enumerations. rewrite in_concat. split.
  - intros (L & HL & Hc). apply in_map_iff in HL. destruct HL as (k & <- & Hk).
    destruct (combinations_subsequence pool (Z.to_nat k) c Hc) as [Hlen Hsub].
    split; [|exact Hsub].
    apply size_range_lower in Hk as Hlow.
    replace (Z.of_nat (List.length c)) with k by lia. exact Hk.
  - intros (Hk & Hsub).
    exists (combinations pool (Z.to_nat (Z.of_nat (List.length c)))). split.
    + apply in_map_iff. exists (Z.of_nat (List.length c)). split; [reflexivity|exact Hk].
    + rewrite Nat2Z.id. apply combinations_complete. exact Hsub.
Qed.

Lemma combinations_sizes_NoDup {A : Type} (pool : list A) (ks : list nat) :
  NoDup pool -> NoDup ks -> NoDup (List.concat (map (combinations pool) ks)).
Proof.
  intros Hpool. induction ks as [|k ks IH]; intros Hks; simpl.
  - constructor.
  - inversion Hks as [|? ? Hk Hks']; subst. apply NoDup_app.
    + apply combinations_NoDup; exact Hpool.
    + apply IH; exact Hks'.
    + intros c Hc Hc'. apply in_concat in Hc'. destruct Hc' as (L & HL & HcL).
      apply in_map_iff in HL. destruct HL as (k' & <- & Hk').
      destruct (combinations_subsequence pool k c Hc) as [Hlen _].
      destruct (combinations_subsequence pool k' c HcL) as [Hlen' _].
      apply Hk. replace k with k' by lia. exact Hk'.
Qed.

Lemma range_to_nat (lo hi : Z) :
  (0 <= lo)%Z -> map Z.to_nat (range lo hi) = seq (Z.to_nat lo) (Z.to_nat (hi - lo)).
Proof.
  intros Hlo. remember (Z.to_nat (hi - lo)) as n eqn:Hn. revert lo Hlo Hn.
  induction n as [|n IH]; intros lo Hlo Hn.
  - rewrite range_nil by lia. reflexivity.
  - rewrite range_cons by lia. simpl. f_equal.
    rewrite IH by lia. f_equal. lia.
Qed.

Lemma enumerations_NoDup (pool : list var) (min max : Z) :
  (0 <= min)%Z -> NoDup pool -> NoDup (List.concat (enumerations pool min max)).
Proof.
  intros Hmin Hpool. unfold enumerations, size_range.
  rewrite <- (map_map Z.to_nat (combinations pool)).
  apply combinations_sizes_NoDup; [exact Hpool|].
  rewrite range_to_nat by exact Hmin. apply seq_NoDup.
Qed.

Lemma has_column_In (df : DataFrame) (v : var) :
  has_column df v = true <-> In v (df_keys df).
Proof.
  unfold has_column. rewrite existsb_exists. split.
  - intros (k & Hk & E). apply String.eqb_eq in E. subst k. exact Hk.
  - intros H. exists v. split; [exact H|apply String.eqb_refl].
Qed.

Lemma has_column_drop (df : DataFrame) (dep v : var) :
  has_column (drop df dep) v = true <-> (has_column df v = true /\ v <> dep).
Proof.
  rewrite !has_column_In. unfold drop. simpl. rewrite filter_In.
  rewrite negb_true_iff. split.
  - intros [Hin E]. split; [exact Hin|]. intros ->. rewrite String.eqb_refl in E.
    discriminate.
  - intros [Hin Hne]. split; [exact Hin|]. apply String.eqb_neq. congruence.
Qed.

(** X7.  Called with its two positional arguments only, on a table of
    numbers, the script reads the file with [;] and [,], correlates every
    other column with the dependent one, and searches the combinations of
    every size from 1 to the number of those columns: each non-empty
    selection of them, in column order, is evaluated, and with distinct
    column names each exactly once. *)
Theorem script_default_search
    (read_csv : string -> string -> string -> result DataFrame)
    (file : string) (dep : var) (df : DataFrame) :
  read_csv file ";"%string ","%string = Ok df ->
  has_column df dep = true ->
  (forall v, has_column df v = true -> df_text df v = None) ->
  exists yx,
    script read_csv (parse_positional file dep)
    = (EvReadCsv file
         :: map (EvSeriesCorr dep) (df_keys (drop df dep)) ++ [EvFrameCorr],
       hellwig (frame_corr (drop df dep)) (fun v => dict_get v yx)
         (enumerations (df_keys (drop df dep)) 1 (-1))) /\
    (forall c, In c (List.concat (enumerations (df_keys (drop df dep)) 1 (-1))) <->
               (c <> [] /\ subsequence c (df_keys (drop df dep)))) /\
    (NoDup (df_keys (drop df dep)) ->
     NoDup (List.concat (enumerations (df_keys (drop df dep)) 1 (-1)))).
Proof.
  intros Hread Hdep Hnum.
  assert (Hcols : forall v, In v (pool_of df dep []) -> has_column df v = true).
  { intros v Hv. unfold pool_of in Hv.
    apply (proj2 (has_column_In (drop df dep) v)) in Hv.
    apply has_column_drop in Hv. apply Hv. }
  destruct (main_runs read_csv file dep [] ";"%string ","%string 1 (-1) df
              ltac:(lia) Hread Hdep Hcols Hnum) as (yx & _ & Hmain).
  { intros k Hk. right. apply (size_range_default_max 1 (-1)) in Hk; lia. }
  exists yx. split; [exact Hmain|]. split.
  - intros c. rewrite enumerations_In by lia.
    rewrite (size_range_default_max 1 (-1)) by lia. split.
    + intros [Hlen Hsub]. split; [|exact Hsub]. intros ->. simpl in Hlen. lia.
    + intros [Hne Hsub]. split; [|exact Hsub].
      pose proof (subsequence_length c _ Hsub).
      destruct c; [congruence|simpl List.length in *; lia].
  - apply enumerations_NoDup. lia.
Qed.

(** ** How a run ends *)









Lemma yx_corrs_loop_stops (df : DataFrame) (dep : var) (pre : list var) (x : var)
    (post : list var) (evs : list event) (e : exn) :
  df_text df dep = None ->
  (forall v, In v pre -> has_column df v = true /\ df_text df v = None) ->
  (forall yx0, yx_corrs_loop df dep (x :: post) yx0 = (evs, Raise e)) ->
  forall yx0,
    yx_corrs_loop df dep (pre ++ x :: post) yx0
    = (map (EvSeriesCorr dep) pre ++ evs, Raise e).
Proof.
  intros Hdep Hpre Hx. induction pre as [|v pre IH]; intros yx0.
  - apply Hx.
  - destruct (Hpre v (or_introl eq_refl)) as [Hv Hvnum].
    cbn [app yx_corrs_loop map]. rewrite Hv, (series_corr_numbers df dep v Hdep Hvnum).
    rewrite IH by (intros w Hw; apply Hpre; right; exact Hw). reflexivity.
Qed.

Lemma main_stops_in_loop (read_csv : string -> string -> string -> result DataFrame)
    (fname : string) (dep : var) (vars : list var) (delimeter decimal : string)
    (min max : Z) (df : DataFrame) (evs : list event) (e : exn) :
  (1 <= min)%Z ->
  read_csv fname delimeter decimal = Ok df ->
  has_column df dep = true ->
  yx_corrs_loop df dep (pool_of df dep vars) [] = (evs, Raise e) ->
  main read_csv fname dep vars delimeter decimal min max
  = (EvReadCsv fname :: evs, Raise e).
Proof.
  intros Hmin Hread Hdep Hloop. unfold main.
  destruct (min <? 1)%Z eqn:E; [apply Z.ltb_lt in E; lia|].
  rewrite Hread, Hdep. simpl negb. cbv iota.
  fold (pool_of df dep vars). cbv zeta. rewrite Hloop. reflexivity.
Qed.

(** X10.  An independent variable that is not a column of the table stops
    the run with [KeyError] as soon as its turn comes in the correlation
    loop: the variables before it, columns of numbers, have been
    correlated, the matrix has not been computed and nothing has been
    scored. *)
Theorem unknown_column_raises
    (read_csv : string -> string -> string -> result DataFrame)
    (fname : string) (dep : var) (pre : list var) (x : var) (post : list var)
    (delimeter decimal : string) (min max : Z) (df : DataFrame) :
  (1 <= min)%Z ->
  read_csv fname delimeter decimal = Ok df ->
  has_column df dep = true ->
  df_text df dep = None ->
  (forall v, In v pre -> has_column df v = true /\ df_text df v = None) ->
  has_column df x = false ->
  main read_csv fname dep (pre ++ x :: post) delimeter decimal min max
  = (EvReadCsv fname :: map (EvSeriesCorr dep) pre, Raise KeyError).
Proof.
  intros Hmin Hread Hdep Hdepnum Hpre Hx.
  assert (Hpool : pool_of df dep (pre ++ x :: post) = pre ++ x :: post)
    by (destruct pre; reflexivity).
  rewrite (main_stops_in_loop read_csv fname dep (pre ++ x :: post) delimeter decimal
             min max df (map (EvSeriesCorr dep) pre) KeyError Hmin Hread Hdep);
    [reflexivity|].
  rewrite Hpool.
  rewrite (yx_corrs_loop_stops df dep pre x post [] KeyError Hdepnum Hpre).
  - rewrite app_nil_r. reflexivity.
  - intros yx0. simpl. rewrite Hx. reflexivity.
Qed.


(** X17.  A smallest size above [sys.maxsize] makes the generator overflow
    on line 64: the correlations with the dependent variable have been
    computed, the matrix has not. *)
Theorem oversize_raises
    (read_csv : string -> string -> string -> result DataFrame)
    (fname : string) (dep : var) (vars : list var) (delimeter decimal : string)
    (min max : Z) (df : DataFrame) :
  (PY_SSIZE_T_MAX < min)%Z ->
  In min (size_range min max (List.length (pool_of df dep vars))) ->
  (Z.of_nat (List.length (pool_of df dep vars)) <= PY_SSIZE_T_MAX)%Z ->
  read_csv fname delimeter decimal = Ok df ->
  has_column df dep = true ->
  df_text df dep = None ->
  (forall v, In v (pool_of df dep vars) ->
             has_column df v = true /\ df_text df v = None) ->
  main read_csv fname dep vars delimeter decimal min max
  = (EvReadCsv fname :: map (EvSeriesCorr dep) (pool_of df dep vars),
     Raise OverflowError).
Proof.
  intros Hbig Hsize Hlen Hread Hdep Hdepnum Hcols.
  assert (Hmin : (1 <= min)%Z) by (unfold PY_SSIZE_T_MAX in Hbig; lia).
  destruct (main_correlates read_csv fname dep vars delimeter decimal min max df
              Hmin Hread Hdep Hdepnum Hcols) as (yx & _ & Hmain).
  rewrite Hmain. unfold size_range in *. apply range_In in Hsize.
  rewrite range_cons by lia. simpl parallel.
  assert (Hc : combination (pool_of df dep vars) min = Raise OverflowError).
  { unfold combination.
    destruct (min <? 0)%Z eqn:E; [apply Z.ltb_lt in E; lia|].
    destruct (PY_SSIZE_T_MAX <? min)%Z eqn:E1; [|apply Z.ltb_ge in E1; lia].
    destruct (Z.of_nat (List.length (pool_of df dep vars)) <? min)%Z eqn:E2;
      [reflexivity|apply Z.ltb_ge in E2; lia]. }
  rewrite Hc. reflexivity.
Qed.

(** ** What the capacity depends on *)

Lemma hellwig_singular_capacity (cm : var -> var -> option num)
    (dv : var -> option num) (corr dvec : var -> num) (ref : var) (rest : list var) :
  (forall v, In v (ref :: rest) -> cm ref v = Some (corr v)) ->
  (forall v, In v (ref :: rest) -> dv v = Some (dvec v)) ->
  exists h,
    hellwig_singular cm dv (ref :: rest) = Ok (ref :: rest, h) /\
    num_eq h
      (sum_num (map (fun v => Np.div (Np.square (dvec v))
                                (sum_num (map (fun w => Np.abs (corr w)) (ref :: rest))))
                    (ref :: rest))).
Proof.
  intros Hcm Hdv.
  set (C := ref :: rest) in *.
  pose (D := fold_left (fun acc v => Np.add acc (Np.abs (corr v))) C Np.zero).
  assert (HD : denominator_loop cm C = Ok D)
    by (apply (denominator_loop_ok cm corr ref rest Hcm)).
  assert (HDeq : num_eq D (sum_num (map (fun w => Np.abs (corr w)) C))).
  { unfold D. eapply num_eq_trans; [apply fold_left_sum|]. apply add_zero_l. }
  exists (fold_left (fun acc v => Np.add acc (Np.div (Np.square (dvec v)) D)) C Np.zero).
  split.
  - unfold hellwig_singular. rewrite HD. simpl bind.
    rewrite (capacity_loop_ok dv dvec D C Hdv). reflexivity.
  - eapply num_eq_trans; [apply fold_left_sum|].
    eapply num_eq_trans; [apply add_zero_l|].
    apply sum_num_ext. intros v _.
    apply div_proper; [apply num_eq_refl|exact HDeq].
Qed.

(** X12.  The capacity uses the matrix through absolute values and the
    vector through squares: two sets of correlations that differ in signs
    only give the same capacity. *)
Theorem hellwig_singular_signs (cm cm' : var -> var -> option num)
    (dv dv' : var -> option num) (corr corr' dvec dvec' : var -> num)
    (ref : var) (rest : list var) :
  (forall v, In v (ref :: rest) -> cm ref v = Some (corr v)) ->
  (forall v, In v (ref :: rest) -> cm' ref v = Some (corr' v)) ->
  (forall v, In v (ref :: rest) -> dv v = Some (dvec v)) ->
  (forall v, In v (ref :: rest) -> dv' v = Some (dvec' v)) ->
  (forall v, In v (ref :: rest) -> num_eq (Np.abs (corr v)) (Np.abs (corr' v))) ->
  (forall v, In v (ref :: rest) -> num_eq (Np.square (dvec v)) (Np.square (dvec' v))) ->
  exists h h',
    hellwig_singular cm dv (ref :: rest) = Ok (ref :: rest, h) /\
    hellwig_singular cm' dv' (ref :: rest) = Ok (ref :: rest, h') /\
    num_eq h h'.
Proof.
  intros Hcm Hcm' Hdv Hdv' Habs Hsq.
  destruct (hellwig_singular_capacity cm dv corr dvec ref rest Hcm Hdv) as (h & Hh & Heq).
  destruct (hellwig_singular_capacity cm' dv' corr' dvec' ref rest Hcm' Hdv')
    as (h' & Hh' & Heq').
  exists h, h'. split; [exact Hh|]. split; [exact Hh'|].
  eapply num_eq_trans; [exact Heq|].
  eapply num_eq_trans; [|apply num_eq_sym; exact Heq'].
  apply sum_num_ext. intros v Hv. apply div_proper; [apply Hsq; exact Hv|].
  apply (sum_num_ext (fun w => Np.abs (corr w)) (fun w => Np.abs (corr' w))). exact Habs.
Qed.

(** ** The properties above, at the scenario *)

Section ScenarioMore.

Local Open Scope string_scope.

Lemma hellwig_singular_outcome_witness :
  exists r, hellwig_singular scenario_matrix scenario_vector ["A"; "B"] = Ok r.
Proof.
  apply (proj2 (proj2 (proj2
           (hellwig_singular_outcome scenario_matrix scenario_vector ["A"; "B"])))).
  intros v [<-|[<-|[]]]; split; eexists; reflexivity.
Defined.

Lemma hellwig_outcome_witness :
  exists r, hellwig scenario_matrix scenario_vector (enumerations ["A"; "B"] 1 (-1)) = Ok r.
Proof.
  apply (proj2 (proj1
           (hellwig_outcome scenario_matrix scenario_vector
              (enumerations ["A"; "B"] 1 (-1))))).
  split.
  - vm_compute. discriminate.
  - vm_compute. intros L [<-|[<-|[]]]; (split; [discriminate|]).
    + intros c [<-|[<-|[]]]; eexists; reflexivity.
    + intros c [<-|[]]; eexists; reflexivity.
Defined.

Lemma hellwig_returns_evaluated_witness :
  In ["A"; "B"] (List.concat (enumerations ["A"; "B"] 1 (-1))) /\
  hellwig_singular scenario_matrix scenario_vector ["A"; "B"]
  = Ok (["A"; "B"], Fin (1500000 # 2250000)).
Proof.
  apply (hellwig_returns_evaluated scenario_matrix scenario_vector
           (enumerations ["A"; "B"] 1 (-1))).
  vm_compute. reflexivity.
Defined.

Lemma hellwig_nan_first_witness :
  (hellwig_singular (frame_corr (drop (scenario 1) "Y"))
     (fun v => Some (pairwise_corr (scenario 1) "Y" v)) ["A"] = Ok (["A"], NaN) ->
   ["A"] = ["A"] /\ NaN = NaN) /\
  (NaN = NaN ->
   hellwig_singular (frame_corr (drop (scenario 1) "Y"))
     (fun v => Some (pairwise_corr (scenario 1) "Y" v)) ["A"] = Ok (["A"], NaN)).
Proof.
  apply (hellwig_nan_first (frame_corr (drop (scenario 1) "Y"))
           (fun v => Some (pairwise_corr (scenario 1) "Y" v))
           ["A"] [["B"]] [[["A"; "B"]]] ["A"] NaN).
  vm_compute. reflexivity.
Defined.


Lemma size_range_default_witness : In 2%Z (size_range 1 (-1) 2).
Proof.
  apply (proj2 (size_range_default 1 (-1) 2)); lia.
Defined.

Lemma script_default_search_witness :
  exists yx,
    script (scenario_fs 10) (parse_positional "data.csv" "Y")
    = ((EvReadCsv "data.csv"
          :: map (EvSeriesCorr "Y") (df_keys (drop (scenario 10) "Y"))
          ++ [EvFrameCorr])%list,
       hellwig (frame_corr (drop (scenario 10) "Y")) (fun v => dict_get v yx)
         (enumerations (df_keys (drop (scenario 10) "Y")) 1 (-1))) /\
    (forall c, In c (List.concat (enumerations (df_keys (drop (scenario 10) "Y")) 1 (-1)))
               <-> (c <> [] /\ subsequence c (df_keys (drop (scenario 10) "Y")))) /\
    (NoDup (df_keys (drop (scenario 10) "Y")) ->
     NoDup (List.concat (enumerations (df_keys (drop (scenario 10) "Y")) 1 (-1)))).
Proof.
  apply (script_default_search (scenario_fs 10) "data.csv" "Y" (scenario 10)).
  - reflexivity.
  - reflexivity.
  - intros v _. reflexivity.
Defined.



Lemma unknown_column_raises_witness :
  main (scenario_fs 10) "data.csv" "Y" ["A"; "C"; "B"] ";" "," 1 (-1)
  = ([EvReadCsv "data.csv"; EvSeriesCorr "Y" "A"], Raise KeyError).
Proof.
  apply (unknown_column_raises (scenario_fs 10) "data.csv" "Y" ["A"] "C" ["B"] ";" ","
           1 (-1) (scenario 10)).
  - lia.
  - reflexivity.
  - reflexivity.
  - reflexivity.
  - intros v [<-|[]]. split; reflexivity.
  - reflexivity.
Defined.


Lemma oversize_raises_witness :
  main (scenario_fs 10) "data.csv" "Y" [] ";" "," 9223372036854775808 9223372036854775809
  = ((EvReadCsv "data.csv" :: map (EvSeriesCorr "Y") (pool_of (scenario 10) "Y" []))%list,
     Raise OverflowError).
Proof.
  apply (oversize_raises (scenario_fs 10) "data.csv" "Y" [] ";" ","
           9223372036854775808 9223372036854775809 (scenario 10)).
  - reflexivity.
  - vm_compute. left. reflexivity.
  - vm_compute. discriminate.
  - reflexivity.
  - reflexivity.
  - reflexivity.
  - intros v Hv. vm_compute in Hv. destruct Hv as [<-|[<-|[]]]; split; reflexivity.
Defined.

Lemma hellwig_singular_signs_witness :
  exists h h',
    hellwig_singular (fun _ _ => Some (Fin (1 # 2))) (fun _ => Some (Fin (8 # 10)))
      ["A"; "B"] = Ok (["A"; "B"], h) /\
    hellwig_singular (fun _ _ => Some (Fin (- 1 # 2))) (fun _ => Some (Fin (- 8 # 10)))
      ["A"; "B"] = Ok (["A"; "B"], h') /\
    num_eq h h'.
Proof.
  apply (hellwig_singular_signs (fun _ _ => Some (Fin (1 # 2)))
           (fun _ _ => Some (Fin (- 1 # 2)))
           (fun _ => Some (Fin (8 # 10))) (fun _ => Some (Fin (- 8 # 10)))
           (fun _ => Fin (1 # 2)) (fun _ => Fin (- 1 # 2))
           (fun _ => Fin (8 # 10)) (fun _ => Fin (- 8 # 10)) "A" ["B"]).
  - intros v _. reflexivity.
  - intros v _. reflexivity.
  - intros v _. reflexivity.
  - intros v _. reflexivity.
  - intros v _. vm_compute. reflexivity.
  - intros v _. vm_compute. reflexivity.
Defined.

End ScenarioMore.
